(** * snaps-cli, [src/build.js]: the bundle post-processor and its error path

    A shallow embedding of [postProcess], [writeError] and the completion
    callback of [bundle].  JavaScript strings are sequences of UTF-16 code
    units; the regular expressions of the source are kept as syntax trees and
    run by a backtracking matcher that follows the ECMAScript semantics of
    the constructs the source uses. *)

From Stdlib Require Import NArith List String Ascii Lia Bool.
From stdpp Require Import base list gmap.
Import ListNotations.

Local Open Scope nat_scope.
Local Open Scope list_scope.

(** ** JavaScript strings *)

Module JS.

Local Open Scope N_scope.

(** A UTF-16 code unit. *)
Definition char := N.
Definition jsstring := list char.

Definition ch (a : ascii) : char := N_of_ascii a.

(** The code units of an ASCII literal. *)
Definition js (s : string) : jsstring := List.map N_of_ascii (list_ascii_of_string s).

Definition nl : char := 10.
Definition dq : char := 34.

Definition in_range (lo hi c : char) : bool := (N.leb lo c && N.leb c hi)%bool.

(** [\d] and [\w] without the unicode or ignoreCase flags. *)
Definition isDigit (c : char) : bool := in_range 48 57 c.
Definition isWordChar (c : char) : bool :=
  (in_range 97 122 c || in_range 65 90 c || in_range 48 57 c || N.eqb c 95)%bool.

(** LineTerminator: LF, CR, LS, PS. *)
Definition isLineTerminator (c : char) : bool :=
  (N.eqb c 10 || N.eqb c 13 || N.eqb c 8232 || N.eqb c 8233)%bool.

(** WhiteSpace (TAB, VT, FF, SP, NBSP, ZWNBSP and category Zs) or
    LineTerminator: what [String.prototype.trim] removes. *)
Definition isWhiteSpace (c : char) : bool :=
  (N.eqb c 9 || N.eqb c 11 || N.eqb c 12 || N.eqb c 32 || N.eqb c 160
   || N.eqb c 65279 || N.eqb c 5760 || in_range 8192 8202 c
   || N.eqb c 8239 || N.eqb c 8287 || N.eqb c 12288
   || isLineTerminator c)%bool.

Fixpoint trimStart (s : jsstring) : jsstring :=
  match s with
  | c :: s' => if isWhiteSpace c then trimStart s' else s
  | [] => []
  end.

Definition trimEnd (s : jsstring) : jsstring := rev (trimStart (rev s)).

Definition trim (s : jsstring) : jsstring := trimEnd (trimStart s).

Fixpoint startsWith (s p : jsstring) {struct p} : bool :=
  match p, s with
  | [], _ => true
  | a :: p', b :: s' => (N.eqb b a && startsWith s' p')%bool
  | _ :: _, [] => false
  end.

Definition endsWith (s p : jsstring) : bool := startsWith (rev s) (rev p).

(** [s.slice(0, -1)]. *)
Definition slice_0_m1 (s : jsstring) : jsstring := removelast s.

(** [s.indexOf(p) !== -1]. *)
Fixpoint includes (s p : jsstring) : bool :=
  (startsWith s p ||
   match s with
   | [] => false
   | _ :: s' => includes s' p
   end)%bool.

(** [s.replace(p, r)] with a string pattern [p] and a replacement [r] free
    of [$]: only the first occurrence is replaced. *)
Fixpoint replace_string (s p r : jsstring) : jsstring :=
  if startsWith s p then r ++ skipn (length p) s
  else match s with
       | [] => []
       | c :: s' => c :: replace_string s' p r
       end.

End JS.
Export JS.

Arguments js _%_string : simpl never.
Arguments ch _%_char : simpl never.

(** Replace the literals of the goal by their code units. *)
Ltac js_literals :=
  repeat match goal with
         | |- context [js ?s] =>
             let v := eval vm_compute in (js s) in change (js s) with v
         | |- context [ch ?a] =>
             let v := eval vm_compute in (ch a) in change (ch a) with v
         end.

(** ** UTF-8 *)

Module Utf8.

Local Open Scope N_scope.

(** The content of a file. *)
Definition bytes := list N.

Definition isLeadSurrogate (c : char) : bool := in_range 0xD800 0xDBFF c.
Definition isTrailSurrogate (c : char) : bool := in_range 0xDC00 0xDFFF c.

Definition continuation_byte (n : N) : N := N.lor 0x80 (N.land n 0x3F).

(** The UTF-8 form of one code point. *)
Definition encode_code_point (cp : N) : bytes :=
  if cp <? 0x80 then [cp]
  else if cp <? 0x800 then
    [N.lor 0xC0 (N.shiftr cp 6); continuation_byte cp]
  else if cp <? 0x10000 then
    [N.lor 0xE0 (N.shiftr cp 12); continuation_byte (N.shiftr cp 6); continuation_byte cp]
  else
    [N.lor 0xF0 (N.shiftr cp 18); continuation_byte (N.shiftr cp 12);
     continuation_byte (N.shiftr cp 6); continuation_byte cp].

Definition replacement_character : N := 0xFFFD.

(** What a stream with encoding [utf8] writes for a string: a lead
    surrogate followed by a trail surrogate is one code point, any other
    surrogate is written as U+FFFD. *)
Fixpoint encode (s : jsstring) : bytes :=
  match s with
  | [] => []
  | c :: s' =>
      if isLeadSurrogate c then
        match s' with
        | d :: s'' =>
            if isTrailSurrogate d then
              encode_code_point (0x10000 + (c - 0xD800) * 0x400 + (d - 0xDC00)) ++ encode s''
            else encode_code_point replacement_character ++ encode s'
        | [] => encode_code_point replacement_character
        end
      else if isTrailSurrogate c then encode_code_point replacement_character ++ encode s'
      else encode_code_point c ++ encode s'
  end.

(** The string has no surrogate that is not part of a pair. *)
Fixpoint well_formed (s : jsstring) : bool :=
  match s with
  | [] => true
  | c :: s' =>
      if isLeadSurrogate c then
        match s' with
        | d :: s'' => (isTrailSurrogate d && well_formed s'')%bool
        | [] => false
        end
      else (negb (isTrailSurrogate c) && well_formed s')%bool
  end.

End Utf8.
Export Utf8.

(** ** Regular expressions *)

Module Regex.

Inductive class_item :=
| CChar (c : char)   (* a (possibly escaped) character *)
| CWord              (* \w *)
| CDigit.            (* \d *)

Inductive regex :=
| REmpty
| RChar (c : char)                              (* a literal character *)
| RDot                                          (* .   *)
| RClass (negated : bool) (items : list class_item)   (* [..] and [^..] *)
| RWordBoundary                                 (* \b  *)
| RBol                                          (* ^   *)
| REol                                          (* $   *)
| RSeq (r1 r2 : regex)
| RStar (r : regex)                             (* r*  greedy *)
| RPlus (r : regex)                             (* r+  greedy *)
| ROpt (r : regex)                              (* r?  greedy *)
| RGroup (n : nat) (r : regex).                 (* the n-th capturing group *)

(** A literal string and a sequence of patterns. *)
Fixpoint rstr (p : jsstring) : regex :=
  match p with
  | [] => REmpty
  | c :: p' => RSeq (RChar c) (rstr p')
  end.

Fixpoint rseq (rs : list regex) : regex :=
  match rs with
  | [] => REmpty
  | r :: rs' => RSeq r (rseq rs')
  end.

Record RegExp := mkRegExp {
  source : regex;
  flag_g : bool;
  flag_m : bool
}.

(** The matcher state: the input before the current position (nearest
    character first), the input after it, the number of characters
    consumed since the match began (the end index), and the captures. *)
Record mstate := mkState {
  before : jsstring;
  after : jsstring;
  pos : nat;
  caps : list (nat * jsstring)
}.

Definition continuation := mstate -> option mstate.

Definition item_matches (i : class_item) (c : char) : bool :=
  match i with
  | CChar x => N.eqb c x
  | CWord => isWordChar c
  | CDigit => isDigit c
  end.

Definition class_matches (negated : bool) (items : list class_item) (c : char) : bool :=
  xorb negated (existsb (fun i => item_matches i c) items).

(** Consume one character accepted by [p]. *)
Definition step_char (p : char -> bool) (st : mstate) (k : continuation) : option mstate :=
  match after st with
  | c :: rest =>
      if p c then k (mkState (c :: before st) rest (S (pos st)) (caps st)) else None
  | [] => None
  end.

Definition word_before (st : mstate) : bool :=
  match before st with c :: _ => isWordChar c | [] => false end.

Definition word_after (st : mstate) : bool :=
  match after st with c :: _ => isWordChar c | [] => false end.

Definition at_bol (multiline : bool) (st : mstate) : bool :=
  match before st with
  | [] => true
  | c :: _ => (multiline && isLineTerminator c)%bool
  end.

Definition at_eol (multiline : bool) (st : mstate) : bool :=
  match after st with
  | [] => true
  | c :: _ => (multiline && isLineTerminator c)%bool
  end.

(** An iteration of a quantifier with minimum 0 fails when it consumed
    nothing: the end index must have moved. *)
Definition progress (st st' : mstate) : bool := Nat.ltb (pos st) (pos st').

(** The text consumed between two states of one match. *)
Definition consumed (st st' : mstate) : jsstring :=
  firstn (pos st' - pos st) (after st).

Fixpoint set_cap (n : nat) (v : jsstring) (cs : list (nat * jsstring)) : list (nat * jsstring) :=
  match cs with
  | [] => [(n, v)]
  | (m, w) :: cs' => if Nat.eqb m n then (n, v) :: cs' else (m, w) :: set_cap n v cs'
  end.

Definition capture (n : nat) (st st' : mstate) : mstate :=
  mkState (before st') (after st') (pos st') (set_cap n (consumed st st') (caps st')).

(** Greedy iteration of [body]; [n] bounds the number of iterations and is
    the length of the remaining input, which every iteration shortens. *)
Fixpoint star_loop (body : mstate -> continuation -> option mstate)
    (n : nat) (st : mstate) (k : continuation) : option mstate :=
  match n with
  | O => k st
  | S n' =>
      match body st (fun st' => if progress st st' then star_loop body n' st' k else None) with
      | Some r => Some r
      | None => k st
      end
  end.

(** The backtracking matcher, in continuation-passing style: the first
    alternative whose continuation succeeds is the result.  The patterns
    of the source have no capturing group under a quantifier, so captures
    are never reset between iterations. *)
Fixpoint rmatch (multiline : bool) (r : regex) (st : mstate) (k : continuation)
    {struct r} : option mstate :=
  match r with
  | REmpty => k st
  | RChar c => step_char (N.eqb c) st k
  | RDot => step_char (fun x => negb (isLineTerminator x)) st k
  | RClass negated items => step_char (class_matches negated items) st k
  | RWordBoundary => if xorb (word_before st) (word_after st) then k st else None
  | RBol => if at_bol multiline st then k st else None
  | REol => if at_eol multiline st then k st else None
  | RSeq r1 r2 => rmatch multiline r1 st (fun st1 => rmatch multiline r2 st1 k)
  | RStar r1 => star_loop (rmatch multiline r1) (length (after st)) st k
  | RPlus r1 =>
      rmatch multiline r1 st
        (fun st1 => star_loop (rmatch multiline r1) (length (after st1)) st1 k)
  | ROpt r1 =>
      match rmatch multiline r1 st (fun st1 => if progress st st1 then k st1 else None) with
      | Some r => Some r
      | None => k st
      end
  | RGroup n r1 => rmatch multiline r1 st (fun st1 => k (capture n st st1))
  end.

(** One attempt at the position between [before] and [rest]. *)
Definition match_at (re : RegExp) (before rest : jsstring) : option mstate :=
  rmatch (flag_m re) (source re) (mkState before rest 0 []) Some.

(** Replacement templates: literal text and [$n]. *)
Inductive titem :=
| TLit (s : jsstring)
| TGroup (n : nat).

Fixpoint get_cap (n : nat) (cs : list (nat * jsstring)) : jsstring :=
  match cs with
  | [] => []
  | (m, w) :: cs' => if Nat.eqb m n then w else get_cap n cs'
  end.

Fixpoint expand (tpl : list titem) (cs : list (nat * jsstring)) : jsstring :=
  match tpl with
  | [] => []
  | TLit s :: tpl' => s ++ expand tpl' cs
  | TGroup n :: tpl' => get_cap n cs ++ expand tpl' cs
  end.

(** The replace loop resumed at the position between [before] and [rest];
    [skip] counts the characters of the last match still to pass over.
    Matching always sees the original input on both sides. *)
Fixpoint replace_from (re : RegExp) (tpl : list titem)
    (before rest : jsstring) (skip : nat) (found : bool) : jsstring :=
  match skip with
  | S n =>
      match rest with
      | [] => []
      | c :: rest' => replace_from re tpl (c :: before) rest' n found
      end
  | O =>
      if (found && negb (flag_g re))%bool then rest
      else
        match match_at re before rest with
        | Some st' =>
            expand tpl (caps st') ++
            match pos st', rest with
            | _, [] => []
            | O, c :: rest' => c :: replace_from re tpl (c :: before) rest' 0 true
            | S n, c :: rest' => replace_from re tpl (c :: before) rest' n true
            end
        | None =>
            match rest with
            | [] => []
            | c :: rest' => c :: replace_from re tpl (c :: before) rest' 0 found
            end
        end
  end.

(** [s.replace(re, tpl)]. *)
Definition replace (s : jsstring) (re : RegExp) (tpl : list titem) : jsstring :=
  replace_from re tpl [] s 0 false.

End Regex.
Export Regex.

(** ** [src/build.js] *)

Module Build.

(** *** The patterns and replacement texts of [postProcess] *)

(** [/\.import\(/g] and ['["import"]('] (line 114). *)
Definition re_import : RegExp := mkRegExp (rstr (js ".import(")) true false.
Definition tpl_import : list titem :=
  [TLit (js "[" ++ [dq] ++ js "import" ++ [dq] ++ js "](")].

(** The repeated group [(?:\b[\w\d]*[\]\)]?\.)] of line 118. *)
Definition segment : regex :=
  rseq [RWordBoundary;
        RStar (RClass false [CWord; CDigit]);
        ROpt (RClass false [CChar (ch "]"); CChar (ch ")")]);
        RChar (ch ".")].

(** The argument list [\([^)]*\)] of lines 118 and 125. *)
Definition arguments : regex :=
  rseq [RChar (ch "("); RStar (RClass true [CChar (ch ")")]); RChar (ch ")")].

(** [/((?:\b[\w\d]*[\]\)]?\.)+eval)(\([^)]*\))/g] and ['(1, $1)$2']
    (lines 117-120). *)
Definition re_member_eval : RegExp :=
  mkRegExp
    (rseq [RGroup 1 (rseq [RPlus segment; rstr (js "eval")]);
           RGroup 2 arguments])
    true false.
Definition tpl_member_eval : list titem :=
  [TLit (js "(1, "); TGroup 1; TLit (js ")"); TGroup 2].

(** [/(\b)(eval)(\([^)]*\))/g] and ['$1(1, $2)$3'] (line 125). *)
Definition re_eval : RegExp :=
  mkRegExp
    (rseq [RGroup 1 RWordBoundary; RGroup 2 (rstr (js "eval")); RGroup 3 arguments])
    true false.
Definition tpl_eval : list titem :=
  [TGroup 1; TLit (js "(1, "); TGroup 2; TLit (js ")"); TGroup 3].

(** [/<!--/g], ['< !--'], [/-->/g] and ['-- >'] (lines 130-131). *)
Definition re_html_open : RegExp := mkRegExp (rstr (js "<!--")) true false.
Definition tpl_html_open : list titem := [TLit (js "< !--")].
Definition re_html_close : RegExp := mkRegExp (rstr (js "-->")) true false.
Definition tpl_html_close : list titem := [TLit (js "-- >")].

(** [/^\(function \(Buffer\)\{$/gm] and ['(function (){'] (line 136). *)
Definition re_buffer : RegExp :=
  mkRegExp (rseq [RBol; rstr (js "(function (Buffer){"); REol]) true true.
Definition tpl_buffer : list titem := [TLit (js "(function (){")].

(** [/self/g] and ["window"] (line 156). *)
Definition re_self : RegExp := mkRegExp (rstr (js "self")) true false.
Definition tpl_self : list titem := [TLit (js "window")].

(** [/stdlib./g] and [''] (line 159): the dot is the wildcard. *)
Definition re_stdlib : RegExp := mkRegExp (rseq [rstr (js "stdlib"); RDot]) true false.
Definition tpl_stdlib : list titem := [TLit []].

(** The string pattern and replacement of line 162. *)
Definition setImmediate_call : jsstring := js "setImmediate(() => resultCb(result))".
Definition resultCb_call : jsstring := js "resultCb(result)".

Definition empty_bundle_message : jsstring :=
  js "Bundled code is empty after postprocessing.".

(** *** Values, options and results *)

(** What [bundle] passes as [bundleString]: a string or [null]. *)
Inductive value :=
| VNull
| VString (s : jsstring).

Record options := mkOptions { opt_stripComments : bool }.

Inductive outcome :=
| Null                      (* [return null] *)
| Threw (message : jsstring) (* [throw new Error(message)] *)
| Returned (s : jsstring).

(** *** The phases of [postProcess] *)

(** Lines 113-136: the substitutions on the trimmed text. *)
Definition rule_import (s : jsstring) : jsstring := replace s re_import tpl_import.
Definition rule_member_eval (s : jsstring) : jsstring := replace s re_member_eval tpl_member_eval.
Definition rule_eval (s : jsstring) : jsstring := replace s re_eval tpl_eval.
Definition rule_html (s : jsstring) : jsstring :=
  replace (replace s re_html_open tpl_html_open) re_html_close tpl_html_close.
Definition rule_buffer (s : jsstring) : jsstring := replace s re_buffer tpl_buffer.

Definition substitute (s : jsstring) : jsstring :=
  rule_buffer (rule_html (rule_eval (rule_member_eval (rule_import s)))).

(** Lines 143-148: wrap the bundle in an anonymous function. *)
Definition wrap (bundleString : jsstring) : jsstring :=
  let bundleString :=
    if endsWith bundleString (js ";") then slice_0_m1 bundleString else bundleString in
  if (startsWith bundleString (js "(") && endsWith bundleString (js ")"))%bool
  then js "() => " ++ bundleString
  else js "() => (" ++ [nl] ++ bundleString ++ [nl] ++ js ")".

(** Lines 152-162: the patches on the wrapped text. *)
Definition patch_regenerator (s : jsstring) : jsstring :=
  if includes s (js "regeneratorRuntime")
  then js "var regeneratorRuntime;" ++ [nl] ++ s
  else s.
Definition patch_self (s : jsstring) : jsstring := replace s re_self tpl_self.
Definition patch_stdlib (s : jsstring) : jsstring := replace s re_stdlib tpl_stdlib.
Definition patch_setImmediate (s : jsstring) : jsstring :=
  replace_string s setImmediate_call resultCb_call.

Definition patch (s : jsstring) : jsstring :=
  patch_setImmediate (patch_stdlib (patch_self (patch_regenerator s))).

(** Lines 138-164: from the substituted text to the result. *)
Definition finish (bundleString : jsstring) : outcome :=
  if Nat.eqb (length bundleString) 0 then Threw empty_bundle_message
  else Returned (patch (wrap bundleString)).

Section PostProcess.

(** The comment stripper of [@nodefactory/strip-comments] (line 1), an
    external package. *)
Variable stripComments : jsstring -> jsstring.

(** Lines 107-111. *)
Definition prepare (options : options) (bundleString : jsstring) : jsstring :=
  let bundleString := trim bundleString in
  if opt_stripComments options then stripComments bundleString else bundleString.

(** [postProcess] (lines 101-165). *)
Definition postProcess (bundleString : value) (options : options) : outcome :=
  match bundleString with
  | VNull => Null
  | VString s => finish (substitute (prepare options s))
  end.

End PostProcess.

(** *** The error path and the completion callback of [bundle] *)

(** The part of the environment the error path touches: the file system
    (the bytes of every file), what went to [logError] and to
    [console.log], [snaps.isWatching], and the exit code once
    [process.exit] has run. *)
Record world := mkWorld {
  files : gmap jsstring bytes;
  logged : list (jsstring * option jsstring);
  console : list jsstring;
  isWatching : bool;
  exit_code : option nat
}.

Definition logError (msg : jsstring) (err : option jsstring) (w : world) : world :=
  mkWorld (files w) ((msg, err) :: logged w) (console w) (isWatching w) (exit_code w).

(** [fs.unlinkSync] inside [try {} catch {}]: a missing file is ignored. *)
Definition unlinkSync (path : jsstring) (w : world) : world :=
  mkWorld (delete path (files w)) (logged w) (console w) (isWatching w) (exit_code w).

Definition process_exit (code : nat) (w : world) : world :=
  mkWorld (files w) (logged w) (console w) (isWatching w) (Some code).

Definition console_log (msg : jsstring) (w : world) : world :=
  mkWorld (files w) (logged w) (msg :: console w) (isWatching w) (exit_code w).

(** [fs.createWriteStream(dest)]: the file is created, or truncated. *)
Definition createBundleStream (dest : jsstring) (w : world) : world :=
  mkWorld (<[dest := []]> (files w)) (logged w) (console w) (isWatching w) (exit_code w).

(** [stream.end(data)] on the stream of [dest], which was opened with
    [encoding: 'utf8'] (line 66): the string is written in UTF-8. *)
Definition stream_end (dest : jsstring) (data : option jsstring) (w : world) : world :=
  match data with
  | Some s =>
      mkWorld (<[dest := encode s]> (files w)) (logged w) (console w) (isWatching w)
        (exit_code w)
  | None => w
  end.

(** [writeError] (lines 175-188).  An argument left out by the caller is
    [None]; the messages are given by their string conversion. *)
Definition writeError (prefix msg : jsstring) (err : option jsstring)
    (destFilePath : option jsstring) (w : world) : world :=
  let prefix := if endsWith prefix (js " ") then prefix else prefix ++ js " " in
  let w := logError (prefix ++ msg) err w in
  let w :=
    match destFilePath with
    | Some (c :: p) => unlinkSync (c :: p) w
    | Some [] | None => w
    end in
  if isWatching w then w else process_exit 1 w.

Section Bundle.

Variable stripComments : jsstring -> jsstring.

(** The callback given to [.bundle] (lines 34-53); nothing runs once the
    process has exited. *)
Definition on_bundle (src dest : jsstring) (argv_stripComments : bool)
    (err bundle : option jsstring) (w : world) : world :=
  let w :=
    match err with
    | Some e => writeError (js "Build error:") e None None w
    | None => w
    end in
  match exit_code w with
  | Some _ => w
  | None =>
      let bundleString := match bundle with Some b => VString b | None => VNull end in
      match postProcess stripComments bundleString (mkOptions argv_stripComments) with
      | Threw m => writeError (js "Write error:") m (Some m) (Some dest) w
      | Null => stream_end dest None w
      | Returned s =>
          let w := stream_end dest (Some s) w in
          match bundle with
          | Some _ =>
              console_log
                (js "Build success: '" ++ src ++ js "' bundled as '" ++ dest ++ js "'!") w
          | None => w
          end
      end
  end.

(** [bundle] (lines 21-55), with the producer's answer [(err, bundle)]. *)
Definition bundle (src dest : jsstring) (argv_stripComments : bool)
    (err bundle : option jsstring) (w : world) : world :=
  on_bundle src dest argv_stripComments err bundle (createBundleStream dest w).

End Bundle.

End Build.
Export Build.

(** ** The comment stripper *)

Module Strip.

Inductive mode :=
| Code
| Quoted (q : char)
| LineComment
| BlockComment.

Definition backslash : char := 92%N.

Definition isQuote (c : char) : bool :=
  (N.eqb c (ch "'") || N.eqb c dq || N.eqb c (ch "`"))%bool.

(** Modelled from the spec: the comment-stripping collaborator
    ([@nodefactory/strip-comments], an external package) deletes [//...]
    line comments and [/*...*/] block comments, respecting string
    literals. *)
Fixpoint strip (m : mode) (s : jsstring) : jsstring :=
  match s with
  | [] => []
  | c :: s1 =>
      match m with
      | Code =>
          match s1 with
          | d :: s2 =>
              if (N.eqb c (ch "/") && N.eqb d (ch "/"))%bool then strip LineComment s2
              else if (N.eqb c (ch "/") && N.eqb d (ch "*"))%bool then strip BlockComment s2
              else if isQuote c then c :: strip (Quoted c) s1
              else c :: strip Code s1
          | [] => [c]
          end
      | Quoted q =>
          if N.eqb c q then c :: strip Code s1
          else
            match s1 with
            | d :: s2 =>
                if N.eqb c backslash then c :: d :: strip (Quoted q) s2
                else c :: strip (Quoted q) s1
            | [] => [c]
            end
      | LineComment =>
          if isLineTerminator c then c :: strip Code s1 else strip LineComment s1
      | BlockComment =>
          match s1 with
          | d :: s2 =>
              if (N.eqb c (ch "*") && N.eqb d (ch "/"))%bool then strip Code s2
              else strip BlockComment s1
          | [] => []
          end
      end
  end.

Definition stripComments_model (s : jsstring) : jsstring := strip Code s.

End Strip.

(** ** Vocabulary of the statements *)

Module Words.

(** The two tests of line 144, as relations on the text. *)
Definition parenthesized (u : jsstring) : Prop :=
  js "(" `prefix_of` u ∧ js ")" `suffix_of` u.

(** Line 143, as a relation: [u] is [t] without one trailing semicolon. *)
Definition drops_semicolon (t u : jsstring) : Prop :=
  t = u ++ js ";" ∨ (u = t ∧ ¬ js ";" `suffix_of` t).

(** [x] and [y] differ at a position both have. *)
Fixpoint clash (x y : jsstring) : bool :=
  match x, y with
  | a :: x', b :: y' => (negb (N.eqb a b) || clash x' y')%bool
  | _, _ => false
  end.

(** No occurrence of [q] can begin inside [r], whatever follows [r]. *)
Fixpoint inert (r q : jsstring) : bool :=
  match r with
  | [] => true
  | _ :: r' => (clash r q && inert r' q)%bool
  end.

(** Replacing [p] by [r] cannot complete a prefix [q] that was not there:
    at every suffix of [q], [r] clashes with it or [p] begins with it. *)
Fixpoint reflects (p r q : jsstring) : bool :=
  match q with
  | [] => true
  | _ :: q' => ((clash r q || startsWith p q) && reflects p r q')%bool
  end.

(** No proper non-empty suffix of [p] is a prefix of [p]: two occurrences
    of [p] never overlap. *)
Definition borderless (p : jsstring) : bool :=
  forallb (fun k => negb (startsWith p (skipn k p))) (seq 1 (length p - 1)).

(** An identifier as [[\w\d]*] sees it: a non-empty run of word characters. *)
Definition identifier (w : jsstring) : Prop :=
  w ≠ [] ∧ Forall (fun c => isWordChar c = true) w.

(** [id1.id2. ... idn.]: every identifier followed by a dot. *)
Fixpoint dotted (ids : list jsstring) : jsstring :=
  match ids with
  | [] => []
  | w :: ids' => w ++ ch "." :: dotted ids'
  end.

(** An argument list the pattern [\([^)]*\)] takes whole. *)
Definition no_closing_paren (args : jsstring) : Prop :=
  Forall (fun c => N.eqb c (ch ")") = false) args.

(** The position after [before] is not preceded by a word character. *)
Definition at_word_start (before : jsstring) : Prop :=
  match before with
  | [] => True
  | c :: _ => isWordChar c = false
  end.

(** [s.replace(/p/g, r)] for a literal [p]. *)
Definition replace_all (p r s : jsstring) : jsstring :=
  replace s (mkRegExp (rstr p) true false) [TLit r].

End Words.
Export Words.

(** ** The stream handlers and the lines of a text *)

Module Stream.

(** The ['error'] handler that [createBundleStream] installs on the
    stream of [dest] (lines 68-70), run with the message of the error. *)
Definition on_stream_error (dest msg : jsstring) (w : world) : world :=
  writeError (js "Write error:") msg (Some msg) (Some dest) w.

End Stream.
Export Stream.

Module Lines.

Definition whitespace (s : jsstring) : Prop := Forall (fun c => isWhiteSpace c = true) s.

(** A text as its first line and the further lines, each with the line
    terminator before it. *)
Definition lines : Type := (jsstring * list (char * jsstring))%type.

Fixpoint split_lines (s : jsstring) : lines :=
  match s with
  | [] => ([], [])
  | c :: s' =>
      let (l, rest) := split_lines s' in
      if isLineTerminator c then ([], (c, l) :: rest) else (c :: l, rest)
  end.

Fixpoint join_rest (rest : list (char * jsstring)) : jsstring :=
  match rest with
  | [] => []
  | (t, l) :: rest' => t :: l ++ join_rest rest'
  end.

Definition join_lines (ls : lines) : jsstring := fst ls ++ join_rest (snd ls).

Definition map_lines (f : jsstring -> jsstring) (ls : lines) : lines :=
  (f (fst ls), List.map (fun tl => (fst tl, f (snd tl))) (snd ls)).

(** What line 136 does to one line. *)
Definition drop_Buffer (l : jsstring) : jsstring :=
  if bool_decide (l = js "(function (Buffer){") then js "(function (){" else l.

(** The text has no opening parenthesis. *)
Definition no_opening_paren (s : jsstring) : Prop :=
  Forall (fun c => N.eqb c (ch "(") = false) s.

(** The texts that the patterns of [postProcess] look for (lines 114-162). *)
Definition trigger_texts : list jsstring :=
  [js ".import("; js "eval("; js "<!--"; js "-->"; js "(function (Buffer){";
   js "regeneratorRuntime"; js "self"; js "stdlib"; setImmediate_call].

(** The text holds none of them. *)
Definition plain (t : jsstring) : bool :=
  forallb (fun q => negb (includes t q)) trigger_texts.

End Lines.
Export Lines.

(** ** Calls of [eval] in a text *)

Module Calls.

(** The text ends in no word character and in no dot: an identifier chain
    written behind it begins there. *)
Definition chain_start (pre : jsstring) : bool :=
  match last pre with
  | Some c => (negb (isWordChar c) && negb (N.eqb c (ch ".")))%bool
  | None => true
  end.

(** A member call [id1. ... idn.eval(args)] and the text between it and
    the call before it, or the beginning of the text. *)
Record call := mkCall {
  call_gap : jsstring;
  call_chain : list jsstring;
  call_args : jsstring
}.

Definition call_text (c : call) : jsstring :=
  dotted (call_chain c) ++ js "eval(" ++ call_args c ++ js ")".

Definition call_indirect (c : call) : jsstring :=
  js "(1, " ++ dotted (call_chain c) ++ js "eval)(" ++ call_args c ++ js ")".

(** A text as its member calls, each behind its gap, and the rest. *)
Fixpoint calls_text (cs : list call) (rest : jsstring) : jsstring :=
  match cs with
  | [] => rest
  | c :: cs' => call_gap c ++ call_text c ++ calls_text cs' rest
  end.

(** The same text with every call in the indirect form. *)
Fixpoint calls_indirect (cs : list call) (rest : jsstring) : jsstring :=
  match cs with
  | [] => rest
  | c :: cs' => call_gap c ++ call_indirect c ++ calls_indirect cs' rest
  end.

(** The chain is made of identifiers and is not the end of a longer one,
    the argument list runs to the first [)], and the gap holds no
    [.eval(]. *)
Definition member_call (c : call) : Prop :=
  includes (call_gap c) (js ".eval(") = false ∧
  chain_start (call_gap c) = true ∧
  call_chain c ≠ [] ∧
  Forall identifier (call_chain c) ∧
  no_closing_paren (call_args c).

(** Every character that is neither a word character nor a dot has a dot
    behind it. *)
Fixpoint well_dotted (x : jsstring) : bool :=
  match x with
  | [] => true
  | c :: v =>
      ((isWordChar c || N.eqb c (ch ".") || startsWith v (js ".")) && well_dotted v)%bool
  end.

(** What iterations of [segment] can take: no opening parenthesis, a dot
    behind every character that is neither a word character nor a dot, and
    a dot at the end. *)
Definition chain_text (x : jsstring) : Prop :=
  no_opening_paren x ∧
  (∀ rest, well_dotted (x ++ rest) = well_dotted rest) ∧
  (∀ c, last x = Some c → c = ch ".").

(** Code in which no string and no comment begins. *)
Definition code_text (p : jsstring) : Prop :=
  Forall (fun c => Strip.isQuote c = false ∧ N.eqb c (ch "/") = false) p.

(** The texts that the steps after the eval rules look for (lines
    130-162). *)
Definition late_texts : list jsstring :=
  [js "<!--"; js "-->"; js "(function (Buffer){";
   js "regeneratorRuntime"; js "self"; js "stdlib"; setImmediate_call].

Definition late_free (t : jsstring) : bool :=
  forallb (fun q => negb (includes t q)) late_texts.

End Calls.
Export Calls.

(** ** Strings: tests against relations *)

Section StringFacts.

Implicit Types s p t u : jsstring.

Lemma startsWith_prefix s p : startsWith s p = true ↔ p `prefix_of` s.
Proof.
  revert s; induction p as [|a p IH]; intros s; simpl.
  - split; [intros _; apply prefix_nil | reflexivity].
  - destruct s as [|b s].
    + split; [discriminate | intros [k Hk]; discriminate].
    + rewrite andb_true_iff, N.eqb_eq, IH. split.
      * intros [-> Hp]. by apply prefix_cons.
      * intros [k Hk]. injection Hk as -> ->. split; [reflexivity | by exists k].
Qed.

Lemma endsWith_suffix s p : endsWith s p = true ↔ p `suffix_of` s.
Proof.
  unfold endsWith. rewrite startsWith_prefix. split.
  - intros [k Hk]. exists (rev k).
    rewrite <- (rev_involutive s), Hk, rev_app_distr, rev_involutive. reflexivity.
  - intros [k ->]. exists (rev k). apply rev_app_distr.
Qed.

Lemma slice_0_m1_app s (c : char) : slice_0_m1 (s ++ [c]) = s.
Proof. apply removelast_last. Qed.

Lemma startsWith_app s t : startsWith (s ++ t) s = true.
Proof. apply startsWith_prefix. by exists t. Qed.

Lemma length_zero_nil s : Nat.eqb (length s) 0 = true ↔ s = [].
Proof. destruct s; simpl; split; congruence. Qed.

End StringFacts.

(** ** The wrapping step *)

Section Wrap.

Implicit Types t u : jsstring.

Lemma parenthesized_test u :
  (startsWith u (js "(") && endsWith u (js ")"))%bool = true ↔ parenthesized u.
Proof.
  unfold parenthesized. rewrite andb_true_iff, startsWith_prefix, endsWith_suffix.
  reflexivity.
Qed.

Lemma wrap_body u :
  (parenthesized u →
     (if (startsWith u (js "(") && endsWith u (js ")"))%bool
      then js "() => " ++ u
      else js "() => (" ++ [nl] ++ u ++ [nl] ++ js ")") = js "() => " ++ u) ∧
  (¬ parenthesized u →
     (if (startsWith u (js "(") && endsWith u (js ")"))%bool
      then js "() => " ++ u
      else js "() => (" ++ [nl] ++ u ++ [nl] ++ js ")")
     = js "() => (" ++ [nl] ++ u ++ [nl] ++ js ")").
Proof.
  destruct (startsWith u (js "(") && endsWith u (js ")"))%bool eqn:E; split; intros H.
  - reflexivity.
  - apply parenthesized_test in E. contradiction.
  - apply parenthesized_test in H. congruence.
  - reflexivity.
Qed.

Lemma wrap_characterised t :
  ∃ u, drops_semicolon t u ∧
       (parenthesized u → wrap t = js "() => " ++ u) ∧
       (¬ parenthesized u → wrap t = js "() => (" ++ [nl] ++ u ++ [nl] ++ js ")").
Proof.
  unfold wrap. destruct (endsWith t (js ";")) eqn:E.
  - apply endsWith_suffix in E. destruct E as [u ->].
    exists u. split; [by left |].
    change (js ";") with [ch ";"]. rewrite slice_0_m1_app. apply wrap_body.
  - exists t. split; [| apply wrap_body].
    right. split; [reflexivity |]. intros H. apply endsWith_suffix in H. congruence.
Qed.

Lemma finish_nonempty t : t ≠ [] → finish t = Returned (patch (wrap t)).
Proof.
  intros Hne. unfold finish.
  destruct (Nat.eqb (length t) 0) eqn:E; [| reflexivity].
  apply length_zero_nil in E. contradiction.
Qed.

End Wrap.

(** ** The matcher on literal patterns *)

Section Literal.

Implicit Types s p r : jsstring.

Lemma startsWith_length s p : startsWith s p = true → length p ≤ length s.
Proof.
  intros H. apply startsWith_prefix in H. destruct H as [k ->].
  rewrite length_app. lia.
Qed.

Lemma startsWith_skipn s p : startsWith s p = true → s = p ++ skipn (length p) s.
Proof.
  intros H. apply startsWith_prefix in H. destruct H as [k ->].
  rewrite skipn_app, Nat.sub_diag, skipn_all. reflexivity.
Qed.

(** A literal matches exactly when it is a prefix of the remaining input,
    and then it is consumed. *)
Lemma rmatch_rstr (m : bool) p (st : mstate) (k : continuation) :
  rmatch m (rstr p) st k =
  if startsWith (after st) p
  then k (mkState (rev p ++ before st) (skipn (length p) (after st))
            (pos st + length p) (caps st))
  else None.
Proof.
  revert st. induction p as [|c p IH]; intros [b a i cs]; simpl.
  - by rewrite Nat.add_0_r.
  - unfold step_char; simpl. destruct a as [|x a]; [reflexivity |].
    rewrite (N.eqb_sym x c). destruct (N.eqb c x) eqn:E; simpl; [| reflexivity].
    apply N.eqb_eq in E; subst x. rewrite IH; simpl.
    rewrite <- app_assoc, Nat.add_succ_r. reflexivity.
Qed.

(** Passing over the rest of a match is a jump. *)
Lemma replace_from_skip (re : RegExp) (tpl : list titem) (n : nat) :
  ∀ (before rest : jsstring) (found : bool),
    n ≤ length rest →
    replace_from re tpl before rest n found =
    replace_from re tpl (rev (firstn n rest) ++ before) (skipn n rest) 0 found.
Proof.
  induction n as [|n IH]; intros before rest found Hn.
  - reflexivity.
  - destruct rest as [|c rest]; simpl in Hn; [lia |].
    change (replace_from re tpl before (c :: rest) (S n) found)
      with (replace_from re tpl (c :: before) rest n found).
    rewrite IH by lia. simpl. rewrite <- app_assoc. reflexivity.
Qed.

Lemma jsstring_length_ind (P : jsstring → Prop) :
  (∀ s, (∀ t, length t < length s → P t) → P s) → ∀ s, P s.
Proof.
  intros step s. remember (length s) as n eqn:En. revert s En.
  induction n as [n IH] using lt_wf_ind. intros s ->.
  apply step. intros t Ht. by apply (IH (length t)).
Qed.

Lemma clash_startsWith r q :
  clash r q = true → ∀ x : jsstring, startsWith (r ++ x) q = false.
Proof.
  revert q. induction r as [|a r IH]; intros [|b q] H x; simpl in *; try discriminate.
  destruct (N.eqb a b); simpl in *; [by apply IH | reflexivity].
Qed.

Lemma includes_inert r q (x : jsstring) :
  inert r q = true → includes (r ++ x) q = includes x q.
Proof.
  induction r as [|a r IH]; intros H; [reflexivity |].
  cbn [inert] in H. apply andb_true_iff in H. destruct H as [H1 H2].
  change (includes ((a :: r) ++ x) q)
    with (startsWith ((a :: r) ++ x) q || includes (r ++ x) q)%bool.
  rewrite (clash_startsWith _ _ H1), IH by assumption. reflexivity.
Qed.

Lemma includes_tail (c : char) s q : includes (c :: s) q = false → includes s q = false.
Proof. simpl. intros H. apply orb_false_iff in H. tauto. Qed.

Lemma includes_skipn (n : nat) s q : includes s q = false → includes (skipn n s) q = false.
Proof.
  revert s. induction n as [|n IH]; intros [|c s] H; simpl; try assumption.
  apply IH. by apply includes_tail in H.
Qed.

Lemma borderless_no_overlap p (a p2 : jsstring) :
  borderless p = true → p = a ++ p2 → a ≠ [] → p2 ≠ [] → startsWith p p2 = false.
Proof.
  unfold borderless. rewrite forallb_forall. intros H -> Ha Hp2.
  specialize (H (length a)). rewrite drop_app_length in H.
  apply negb_true_iff, H, in_seq. rewrite length_app.
  destruct a; [contradiction |]. destruct p2; [contradiction |]. simpl. lia.
Qed.

(** An occurrence of a borderless [p] cannot begin inside [a] and run
    into the [p] that follows [a]. *)
Lemma startsWith_app_borderless p (a b : jsstring) :
  borderless p = true → a ≠ [] →
  startsWith (a ++ p ++ b) p = true → startsWith a p = true.
Proof.
  intros Hb Ha E. apply startsWith_prefix. apply startsWith_prefix in E.
  destruct (prefix_weak_total p a (a ++ p ++ b)) as [H | [p2 Hp2]];
    [assumption | by apply prefix_app_r | assumption |].
  destruct p2 as [|d p2]; [rewrite app_nil_r in Hp2; by rewrite Hp2 |].
  exfalso.
  assert (Hov : startsWith p (d :: p2) = false)
    by (by apply (borderless_no_overlap p a (d :: p2))).
  assert (Hpre : (d :: p2) `prefix_of` p ++ b).
  { rewrite Hp2 in E at 1. by apply prefix_app_inv in E. }
  destruct (prefix_weak_total (d :: p2) p (p ++ b)) as [H | H];
    [assumption | by apply prefix_app_r | |].
  - apply startsWith_prefix in H. congruence.
  - apply prefix_length in H. rewrite Hp2 in H at 1.
    rewrite length_app in H. destruct a; [contradiction | simpl in H; lia].
Qed.

Lemma replace_string_unfold s p r :
  replace_string s p r =
  if startsWith s p then r ++ skipn (length p) s
  else match s with
       | [] => []
       | c :: s' => c :: replace_string s' p r
       end.
Proof. destruct s; reflexivity. Qed.

(** [s.replace(p, r)] with a string pattern rewrites the first occurrence
    and nothing behind it. *)
Lemma replace_string_first p r (a b : jsstring) :
  borderless p = true → includes a p = false →
  replace_string (a ++ p ++ b) p r = a ++ r ++ b.
Proof.
  intros Hb. induction a as [|c a IH]; intros Ha; rewrite replace_string_unfold.
  - simpl. by rewrite startsWith_app, drop_app_length.
  - simpl in Ha. apply orb_false_iff in Ha. destruct Ha as [H1 H2].
    destruct (startsWith ((c :: a) ++ p ++ b) p) eqn:E.
    + apply startsWith_app_borderless in E; [congruence | assumption | discriminate].
    + simpl. by rewrite IH.
Qed.

(** *** Global replacement of a literal *)

Section ReplaceAll.

Variables p r : jsstring.
Hypothesis p_nonempty : p ≠ [].

Lemma match_at_literal (m : bool) (before rest : jsstring) :
  match_at (mkRegExp (rstr p) true m) before rest =
  if startsWith rest p
  then Some (mkState (rev p ++ before) (skipn (length p) rest) (length p) [])
  else None.
Proof. unfold match_at. simpl. apply rmatch_rstr. Qed.

(** A global literal replacement looks neither behind nor at what was
    found before. *)
Lemma replace_from_literal_context (m : bool) (rest : jsstring) :
  ∀ (n : nat) (b b' : jsstring) (f f' : bool),
    replace_from (mkRegExp (rstr p) true m) [TLit r] b rest n f =
    replace_from (mkRegExp (rstr p) true m) [TLit r] b' rest n f'.
Proof using p_nonempty.
  induction rest as [|c rest IH]; intros n b b' f f'.
  - destruct n; simpl; [| reflexivity].
    rewrite !andb_false_r, !match_at_literal.
    destruct p; [contradiction | reflexivity].
  - destruct n as [|n].
    + simpl. rewrite !andb_false_r, !match_at_literal.
      destruct (startsWith (c :: rest) p); simpl.
      * f_equal.
        match goal with |- match ?x with _ => _ end = _ => destruct x as [|j] end;
          [f_equal |]; apply IH.
      * f_equal. apply IH.
    + simpl. apply IH.
Qed.

(** The unfolding equation of [s.replace(/p/g, r)]. *)
Lemma replace_all_unfold (s : jsstring) :
  replace_all p r s =
  if startsWith s p
  then r ++ replace_all p r (skipn (length p) s)
  else match s with
       | [] => []
       | c :: s' => c :: replace_all p r s'
       end.
Proof using p_nonempty.
  unfold replace_all, replace at 1.
  destruct s as [|c s].
  - simpl. rewrite match_at_literal. destruct p; [contradiction | reflexivity].
  - cbn [replace_from]. rewrite andb_false_l, match_at_literal.
    destruct (startsWith (c :: s) p) eqn:E.
    + cbn [caps pos expand]. rewrite app_nil_r. f_equal.
      pose proof (startsWith_length _ _ E) as Hlen.
      destruct (length p) as [|[|j]] eqn:Ep;
        [apply length_zero_iff_nil in Ep; contradiction | |];
        cbn [length] in *.
      * cbn [skipn]. apply replace_from_literal_context.
      * rewrite replace_from_skip by lia.
        cbn [skipn]. apply replace_from_literal_context.
    + f_equal. apply replace_from_literal_context.
Qed.

Lemma replace_all_nil : replace_all p r [] = [].
Proof using p_nonempty.
  rewrite replace_all_unfold. destruct p; [contradiction | reflexivity].
Qed.

(** Without an occurrence the text is unchanged. *)
Lemma replace_all_absent (s : jsstring) :
  includes s p = false → replace_all p r s = s.
Proof using p_nonempty.
  induction s as [|c s IH]; intros H; rewrite replace_all_unfold.
  - destruct p; [contradiction | reflexivity].
  - simpl in H. apply orb_false_iff in H. destruct H as [H1 H2].
    rewrite H1, IH by assumption. reflexivity.
Qed.

(** A prefix of the result was a prefix of the input. *)
Lemma replace_all_reflects (q : jsstring) :
  reflects p r q = true →
  ∀ s, startsWith (replace_all p r s) q = true → startsWith s q = true.
Proof using p_nonempty.
  induction q as [|x q IH]; intros Hq s H; [reflexivity |].
  cbn [reflects] in Hq. apply andb_true_iff in Hq. destruct Hq as [H1 H2].
  rewrite replace_all_unfold in H. destruct (startsWith s p) eqn:E.
  - apply orb_true_iff in H1. destruct H1 as [H1 | H1].
    + by rewrite (clash_startsWith _ _ H1) in H.
    + apply startsWith_prefix. apply startsWith_prefix in H1, E. by etrans.
  - destruct s as [|c s]; [discriminate |].
    simpl in H. apply andb_true_iff in H. destruct H as [Hc Hs].
    simpl. rewrite Hc. by apply IH.
Qed.

(** The replacement creates no occurrence of [q]. *)
Lemma replace_all_no_new (q : jsstring) :
  q ≠ [] → inert r q = true → reflects p r (tail q) = true →
  ∀ s, q = p ∨ includes s q = false → includes (replace_all p r s) q = false.
Proof using p_nonempty.
  intros Hq Hi Hr s. induction s as [s IH] using jsstring_length_ind. intros Hs.
  rewrite replace_all_unfold. destruct (startsWith s p) eqn:E.
  - rewrite includes_inert by assumption. apply IH.
    + pose proof (startsWith_length _ _ E). rewrite length_skipn.
      destruct p; [contradiction | simpl in *; lia].
    + destruct Hs as [Hs | Hs]; [by left | right; by apply includes_skipn].
  - destruct s as [|c s].
    + destruct q; [contradiction | reflexivity].
    + assert (Hhead : startsWith (c :: s) q = false).
      { destruct Hs as [-> | Hs]; [assumption |].
        simpl in Hs. apply orb_false_iff in Hs. tauto. }
      change (includes (c :: replace_all p r s) q)
        with (startsWith (c :: replace_all p r s) q || includes (replace_all p r s) q)%bool.
      rewrite IH; [| simpl; lia | destruct Hs as [Hs | Hs]; [by left | right; by apply includes_tail in Hs]].
      rewrite orb_false_r.
      destruct q as [|x q]; [contradiction |]. simpl in *.
      destruct (N.eqb c x); [| reflexivity]. simpl in *.
      destruct (startsWith (replace_all p r s) q) eqn:E2; [| reflexivity].
      apply replace_all_reflects in E2; [congruence | assumption].
Qed.

(** Occurrences of a borderless literal are replaced one by one. *)
Lemma replace_all_occurrence :
  borderless p = true →
  ∀ a b : jsstring,
    replace_all p r (a ++ p ++ b) = replace_all p r a ++ r ++ replace_all p r b.
Proof using p_nonempty.
  intros Hb a b. induction a as [a IH] using jsstring_length_ind.
  rewrite (replace_all_unfold (a ++ p ++ b)), (replace_all_unfold a).
  destruct (startsWith (a ++ p ++ b) p) eqn:E.
  - destruct a as [|c a].
    + simpl. rewrite drop_app_length.
      destruct p; [contradiction | reflexivity].
    + assert (Hpa : startsWith (c :: a) p = true)
        by (by apply (startsWith_app_borderless p (c :: a) b)).
      rewrite Hpa.
      rewrite (startsWith_skipn _ _ Hpa) at 1.
      rewrite <- app_assoc, drop_app_length, IH, <- app_assoc; [reflexivity |].
      rewrite length_skipn. destruct p; [contradiction | simpl; lia].
  - destruct a as [|c a].
    + simpl in E. by rewrite startsWith_app in E.
    + assert (Hpa : startsWith (c :: a) p = false).
      { destruct (startsWith (c :: a) p) eqn:E2; [| reflexivity].
        apply startsWith_prefix in E2.
        assert (startsWith ((c :: a) ++ p ++ b) p = true)
          by (apply startsWith_prefix; by apply prefix_app_r).
        congruence. }
      rewrite Hpa. simpl. rewrite IH by (simpl; lia). reflexivity.
Qed.

End ReplaceAll.

End Literal.

(** ** The matcher on the patterns of the eval rules *)

Section Greedy.

Implicit Types (b rest w x : jsstring) (k : continuation).

Lemma consumed_prefix (st st' : mstate) x rest :
  after st = x ++ rest → pos st' = pos st + length x → consumed st st' = x.
Proof.
  unfold consumed. intros -> ->.
  replace (pos st + length x - pos st) with (length x) by lia.
  by rewrite take_app_length.
Qed.

(** A greedy class iteration that is followed by a character outside the
    class takes the whole run when the continuation accepts that. *)
Lemma star_class_greedy (body : mstate → continuation → option mstate)
    (cls : char → bool) w :
  (∀ st k, body st k = step_char cls st k) →
  Forall (fun c => cls c = true) w →
  ∀ rest b i cs n k res,
    match rest with [] => True | c :: _ => cls c = false end →
    length w ≤ n →
    k (mkState (rev w ++ b) rest (i + length w) cs) = Some res →
    star_loop body n (mkState b (w ++ rest) i cs) k = Some res.
Proof.
  intros Hbody Hw. induction Hw as [|c w Hc Hw IH]; intros rest b i cs n k res Hrest Hn Hk.
  - simpl in Hk. rewrite Nat.add_0_r in Hk.
    destruct n as [|n]; simpl; [assumption |].
    rewrite Hbody. unfold step_char; simpl.
    destruct rest as [|c rest]; [assumption |]. by rewrite Hrest.
  - destruct n as [|n]; simpl in Hn; [lia |].
    simpl. rewrite Hbody. unfold step_char; simpl. rewrite Hc.
    unfold progress; simpl.
    replace (i <? S i) with true by (symmetry; apply Nat.ltb_lt; lia).
    rewrite (IH rest (c :: b) (S i) cs n k res); [reflexivity | assumption | lia |].
    simpl in Hk. rewrite <- app_assoc, Nat.add_succ_r in Hk. exact Hk.
Qed.

Lemma identifier_class w :
  Forall (fun c => isWordChar c = true) w →
  Forall (fun c => class_matches false [CWord; CDigit] c = true) w.
Proof.
  intros H. induction H as [|c w Hc Hw IH]; constructor; [| assumption].
  unfold class_matches; simpl. by rewrite Hc.
Qed.

(** One segment: an identifier at a word start, then the dot. *)
Lemma segment_greedy (m : bool) w b rest i cs k res :
  identifier w → at_word_start b →
  k (mkState (ch "." :: rev w ++ b) rest (S (i + length w)) cs) = Some res →
  rmatch m segment (mkState b (w ++ ch "." :: rest) i cs) k = Some res.
Proof.
  intros [Hne Hw] Hb Hk. unfold segment. cbn [rseq rmatch].
  assert (Hwb : xorb (word_before (mkState b (w ++ ch "." :: rest) i cs))
                     (word_after (mkState b (w ++ ch "." :: rest) i cs)) = true).
  { unfold word_before, word_after; simpl.
    destruct w as [|c w]; [contradiction |]. inversion Hw; subst. simpl.
    destruct b as [|d b]; simpl in *; [by rewrite H1 | by rewrite Hb, H1]. }
  rewrite Hwb.
  apply (star_class_greedy _ (class_matches false [CWord; CDigit]));
    [reflexivity | by apply identifier_class | reflexivity | simpl; rewrite length_app; lia |].
  unfold step_char; simpl. exact Hk.
Qed.

(** No segment begins at [eval(]. *)
Lemma segment_fails_at_eval (m : bool) b rest i cs k :
  rmatch m segment (mkState b (js "eval(" ++ rest) i cs) k = None.
Proof.
  unfold segment. cbn [rseq rmatch].
  destruct (xorb _ _); [| reflexivity].
  js_literals. cbn.
  repeat match goal with
         | |- context [Nat.leb ?a ?b] => destruct (Nat.leb a b)
         end; reflexivity.
Qed.

(** The iteration of segments takes every [id.] of the chain and stops
    before [eval(]. *)
Lemma segments_greedy (m : bool) (ids : list jsstring) :
  Forall identifier ids →
  ∀ x rest i cs n k res,
    length (dotted ids ++ js "eval(" ++ rest) ≤ n →
    k (mkState (rev (dotted ids) ++ ch "." :: x) (js "eval(" ++ rest)
         (i + length (dotted ids)) cs) = Some res →
    star_loop (rmatch m segment) n
      (mkState (ch "." :: x) (dotted ids ++ js "eval(" ++ rest) i cs) k = Some res.
Proof.
  intros Hids. induction Hids as [|w ids Hw Hids IH]; intros x rest i cs n k res Hn Hk.
  - destruct n as [|n];
      [cbn [dotted app] in Hn; rewrite length_app in Hn;
       change (length (js "eval(")) with 5 in Hn; lia |].
    cbn [dotted app star_loop]. rewrite segment_fails_at_eval.
    cbn [dotted rev app length] in Hk. by rewrite Nat.add_0_r in Hk.
  - destruct n as [|n].
    { destruct Hw as [Hne _]. destruct w; [contradiction | cbn [dotted app length] in Hn; lia]. }
    cbn [dotted star_loop]. rewrite <- app_assoc. cbn [app].
    erewrite segment_greedy; [reflexivity | assumption | reflexivity |].
    unfold progress; cbn [pos].
    replace (i <? S (i + length w)) with true by (symmetry; apply Nat.ltb_lt; lia).
    apply IH.
    + cbn [dotted] in Hn. rewrite <- app_assoc, length_app in Hn.
      cbn [app length] in Hn. lia.
    + cbn [dotted] in Hk. rewrite rev_app_distr in Hk. cbn [rev] in Hk.
      rewrite <- !app_assoc in Hk. cbn [app] in Hk.
      rewrite length_app in Hk. cbn [length] in Hk.
      replace (S (i + length w) + length (dotted ids))
        with (i + (length w + S (length (dotted ids)))) by lia.
      exact Hk.
Qed.

Lemma no_closing_paren_class args :
  no_closing_paren args →
  Forall (fun c => class_matches true [CChar (ch ")")] c = true) args.
Proof.
  intros H. induction H as [|c w Hc Hw IH]; constructor; [| assumption].
  unfold class_matches; simpl. by rewrite Hc.
Qed.

(** The argument list: everything up to the first closing parenthesis. *)
Lemma arguments_match (m : bool) args b post i cs k res :
  no_closing_paren args →
  k (mkState (ch ")" :: rev args ++ ch "(" :: b) post
       (i + length (js "(" ++ args ++ js ")")) cs) = Some res →
  rmatch m arguments (mkState b (js "(" ++ args ++ js ")" ++ post) i cs) k = Some res.
Proof.
  intros Hargs Hk. unfold arguments. cbn [rseq rmatch].
  change (js "(") with [ch "("] in *. change (js ")") with [ch ")"] in *.
  cbn [app]. unfold step_char at 1. cbn [after before pos caps].
  rewrite N.eqb_refl.
  apply (star_class_greedy _ (class_matches true [CChar (ch ")")]));
    [reflexivity | by apply no_closing_paren_class | reflexivity
     | rewrite length_app; lia |].
  unfold step_char. cbn [after before pos caps]. rewrite N.eqb_refl.
  cbn [app length] in Hk. rewrite length_app in Hk. cbn [length] in Hk.
  replace (S (S i + length args)) with (i + S (length args + 1)) by lia.
  exact Hk.
Qed.

(** The replace loop at a match: the replacement, then the loop resumed
    after the match. *)
Lemma replace_from_match (re : RegExp) (tpl : list titem) b occ post
    (st' : mstate) (found : bool) :
  flag_g re = true → occ ≠ [] →
  match_at re b (occ ++ post) = Some st' → pos st' = length occ →
  replace_from re tpl b (occ ++ post) 0 found =
  expand tpl (caps st') ++ replace_from re tpl (rev occ ++ b) post 0 true.
Proof.
  intros Hg Hne Hm Hpos. destruct occ as [|c occ]; [contradiction |].
  cbn [app replace_from]. rewrite Hg, andb_false_r.
  change (c :: occ ++ post) with ((c :: occ) ++ post). rewrite Hm, Hpos.
  cbn [length app]. f_equal.
  rewrite replace_from_skip by (rewrite length_app; lia).
  rewrite take_app_length, drop_app_length. cbn [rev].
  by rewrite <- app_assoc.
Qed.

(** The member-eval pattern at the start of [id1. ... idn.eval(args)]. *)
Lemma member_eval_match (ids : list jsstring) args b post :
  ids ≠ [] → Forall identifier ids → no_closing_paren args → at_word_start b →
  ∃ st', match_at re_member_eval b
           (dotted ids ++ js "eval(" ++ args ++ js ")" ++ post) = Some st' ∧
         pos st' = length (dotted ids ++ js "eval(" ++ args ++ js ")") ∧
         caps st' = [(1, dotted ids ++ js "eval"); (2, js "(" ++ args ++ js ")")].
Proof.
  intros Hne Hids Hargs Hb.
  destruct ids as [|w ids]; [contradiction |].
  apply Forall_cons in Hids. destruct Hids as [Hw Hids].
  eexists. split.
  - unfold match_at, re_member_eval. cbn [source flag_m rseq rmatch dotted].
    rewrite <- app_assoc. cbn [app].
    apply segment_greedy; [assumption | assumption |].
    apply segments_greedy;
      [assumption
      | cbn [after]; change (js "eval(") with (js "eval" ++ js "(");
        rewrite <- !app_assoc; reflexivity |].
    change (js "eval(") with (js "eval" ++ js "("). rewrite <- !app_assoc.
    rewrite rmatch_rstr. cbn [after before pos caps].
    rewrite startsWith_app, drop_app_length.
    apply arguments_match; [assumption |].
    reflexivity.
  - cbn [capture pos caps before after]. split.
    + cbn [dotted]. change (js "eval(") with (js "eval" ++ js "(").
      rewrite <- !app_assoc. cbn [app].
      rewrite !length_app. cbn [length]. rewrite !length_app. lia.
    + rewrite (consumed_prefix _ _ (js "(" ++ args ++ js ")") post);
        [| cbn [capture after]; by rewrite <- !app_assoc | reflexivity].
      rewrite (consumed_prefix _ _ (w ++ ch "." :: dotted ids ++ js "eval")
                 (js "(" ++ args ++ js ")" ++ post));
        [| cbn [after]; rewrite <- !app_assoc; cbn [app]; by rewrite <- !app_assoc
         | cbn [pos]; rewrite !length_app; cbn [length]; rewrite !length_app; lia].
      cbn [dotted set_cap Nat.eqb]. by rewrite <- !app_assoc.
Qed.


Lemma member_eval_match_end b : match_at re_member_eval b [] = None.
Proof.
  unfold match_at, re_member_eval, segment. cbn [source flag_m rseq rmatch].
  destruct (xorb _ _); reflexivity.
Qed.

Lemma eval_match_end b : match_at re_eval b [] = None.
Proof.
  unfold match_at, re_eval. cbn [source flag_m rseq rmatch].
  destruct (xorb _ _); reflexivity.
Qed.

End Greedy.

(** ** The eval rules *)

Section EvalRules.

Implicit Types (b args post : jsstring) (ids : list jsstring).

(** Where the loop of line 117 stands at [id1. ... idn.eval(args)], it
    writes the indirect call and goes on behind the closing parenthesis. *)
Lemma member_eval_rewrite ids args b post (found : bool) :
  ids ≠ [] → Forall identifier ids → no_closing_paren args → at_word_start b →
  replace_from re_member_eval tpl_member_eval b
    (dotted ids ++ js "eval(" ++ args ++ js ")" ++ post) 0 found =
  js "(1, " ++ dotted ids ++ js "eval)(" ++ args ++ js ")" ++
  replace_from re_member_eval tpl_member_eval
    (rev (dotted ids ++ js "eval(" ++ args ++ js ")") ++ b) post 0 true.
Proof.
  intros Hne Hids Hargs Hb.
  destruct (member_eval_match ids args b post Hne Hids Hargs Hb)
    as (st' & Hm & Hpos & Hcaps).
  replace (dotted ids ++ js "eval(" ++ args ++ js ")" ++ post)
    with ((dotted ids ++ js "eval(" ++ args ++ js ")") ++ post) in *
    by (by rewrite <- !app_assoc).
  rewrite (replace_from_match _ _ _ _ _ st'); try assumption; try reflexivity.
  - rewrite Hcaps. cbn [tpl_member_eval expand get_cap Nat.eqb].
    change (js "eval)(") with (js "eval" ++ js ")" ++ js "(").
    rewrite <- !app_assoc. reflexivity.
  - destruct ids as [|[|c w] ids]; [contradiction | |]; cbn [dotted app]; discriminate.
Qed.


(** A text that is one member call is rewritten whole. *)
Lemma rule_member_eval_call ids args :
  ids ≠ [] → Forall identifier ids → no_closing_paren args →
  rule_member_eval (dotted ids ++ js "eval(" ++ args ++ js ")") =
  js "(1, " ++ dotted ids ++ js "eval)(" ++ args ++ js ")".
Proof.
  intros Hne Hids Hargs. unfold rule_member_eval, replace.
  pose proof (member_eval_rewrite ids args [] [] false Hne Hids Hargs I) as H.
  rewrite !app_nil_r in H. rewrite H.
  cbn [replace_from]. rewrite member_eval_match_end. by rewrite !app_nil_r.
Qed.

End EvalRules.

(** ** The substitutions never empty a text *)

Section NonEmpty.

Implicit Types (s t : jsstring).

Lemma expand_nonempty (tpl : list titem) (cs : list (nat * jsstring)) (l : jsstring) :
  In (TLit l) tpl → l ≠ [] → expand tpl cs ≠ [].
Proof.
  intros Hin Hl. induction tpl as [|[l'|n] tpl IH]; simpl in *; [contradiction | |].
  - destruct Hin as [[= ->] | Hin]; intros H; apply app_eq_nil in H as [H1 H2].
    + contradiction.
    + by apply IH.
  - destruct Hin as [Hin | Hin]; [discriminate |].
    intros H; apply app_eq_nil in H as [H1 H2]. by apply IH.
Qed.

(** A replacement whose template holds some text maps a non-empty text to
    a non-empty text. *)
Lemma replace_nonempty (re : RegExp) (tpl : list titem) (l : jsstring) s :
  In (TLit l) tpl → l ≠ [] → s ≠ [] → replace s re tpl ≠ [].
Proof.
  intros Hin Hl Hs. destruct s as [|c s]; [contradiction |].
  unfold replace. cbn [replace_from]. rewrite andb_false_l.
  destruct (match_at re [] (c :: s)) as [st'|]; [| discriminate].
  intros H. apply app_eq_nil in H as [H _].
  by apply (expand_nonempty tpl (caps st') l) in H.
Qed.

Lemma substitute_nonempty t : t ≠ [] → substitute t ≠ [].
Proof.
  intros Ht. unfold substitute, rule_buffer, rule_html, rule_eval, rule_member_eval,
    rule_import.
  apply (replace_nonempty _ _ (js "(function (){")); [by left | discriminate |].
  apply (replace_nonempty _ _ (js "-- >")); [by left | discriminate |].
  apply (replace_nonempty _ _ (js "< !--")); [by left | discriminate |].
  apply (replace_nonempty _ _ (js "(1, ")); [right; by left | discriminate |].
  apply (replace_nonempty _ _ (js "(1, ")); [by left | discriminate |].
  apply (replace_nonempty _ _ (js "[" ++ [dq] ++ js "import" ++ [dq] ++ js "]("));
    [by left | discriminate | assumption].
Qed.

Lemma substitute_empty_iff t : length (substitute t) = 0 ↔ t = [].
Proof.
  split.
  - intros H. apply length_zero_iff_nil in H.
    destruct t as [|c t]; [reflexivity |].
    by apply (substitute_nonempty (c :: t)) in H.
  - intros ->. reflexivity.
Qed.

End NonEmpty.

(** ** A comment at the head of the bundle *)

Section CommentHead.

Implicit Types (u v x y z code : jsstring).









End CommentHead.

(** ** The claims about [postProcess] *)

Ltac literal_side :=
  solve [ vm_compute; reflexivity
        | let H := fresh in intros H; vm_compute in H; discriminate H ].

Section Claims.

Implicit Types (s t u a b : jsstring).

Lemma rule_html_replace_all t :
  rule_html t = replace_all (js "-->") (js "-- >") (replace_all (js "<!--") (js "< !--") t).
Proof. reflexivity. Qed.

Lemma patch_self_replace_all t : patch_self t = replace_all (js "self") (js "window") t.
Proof. reflexivity. Qed.

(** C9: the HTML-comment rule of lines 130-131 is idempotent: applying it
    to its own result changes nothing. *)
Theorem rule_html_idempotent t : rule_html (rule_html t) = rule_html t.
Proof.
  rewrite !rule_html_replace_all.
  set (y := replace_all (js "-->") (js "-- >") (replace_all (js "<!--") (js "< !--") t)).
  assert (Hopen : includes y (js "<!--") = false).
  { apply replace_all_no_new; try literal_side.
    right. apply replace_all_no_new; try literal_side. by left. }
  assert (Hclose : includes y (js "-->") = false).
  { apply replace_all_no_new; try literal_side. by left. }
  rewrite (replace_all_absent (js "<!--") (js "< !--")); [| literal_side | assumption].
  apply replace_all_absent; [literal_side | assumption].
Qed.

(** C7, as amended: line 156 replaces every occurrence of the text [self],
    inside a longer word or not, by [window], and leaves no [self] behind;
    [self.postMessage(x)] becomes [window.postMessage(x)]. *)
Theorem patch_self_every_occurrence (stripComments : jsstring → jsstring) :
  (∀ a b, patch_self (a ++ js "self" ++ b) = patch_self a ++ js "window" ++ patch_self b) ∧
  (∀ t, includes (patch_self t) (js "self") = false) ∧
  postProcess stripComments (VString (js "self.postMessage(x)")) (mkOptions false) =
    Returned (js "() => (" ++ [nl] ++ js "window.postMessage(x)" ++ [nl] ++ js ")").
Proof.
  split; [| split].
  - intros a b. rewrite !patch_self_replace_all.
    apply replace_all_occurrence; literal_side.
  - intros t. rewrite patch_self_replace_all.
    apply replace_all_no_new; try literal_side. by left.
  - vm_compute. reflexivity.
Qed.

(** C7, counterexample: in [myself] the text [self] is no token of its own,
    and line 156 replaces it all the same. *)
Lemma self_inside_identifier_replaced :
  patch_self (js "myself") = js "mywindow" ∧
  postProcess (fun s => s) (VString (js "myself")) (mkOptions false) =
    Returned (js "() => (" ++ [nl] ++ js "mywindow" ++ [nl] ++ js ")").
Proof. split; vm_compute; reflexivity. Qed.

(** C2: on a non-empty text the wrapping step drops one trailing semicolon,
    then prefixes [() => ] to a text that starts with an opening and ends
    with a closing parenthesis and puts any other text between [() => (]
    and [)] on lines of their own; [doStuff();] and [(a,b)] give the two
    forms. *)
Theorem wrap_forms (stripComments : jsstring → jsstring) t (Hne : t ≠ []) :
  finish t = Returned (patch (wrap t)) ∧
  (∃ u, drops_semicolon t u ∧
        (parenthesized u → wrap t = js "() => " ++ u) ∧
        (¬ parenthesized u → wrap t = js "() => (" ++ [nl] ++ u ++ [nl] ++ js ")")) ∧
  postProcess stripComments (VString (js "doStuff();")) (mkOptions false) =
    Returned (js "() => (" ++ [nl] ++ js "doStuff()" ++ [nl] ++ js ")") ∧
  postProcess stripComments (VString (js "(a,b)")) (mkOptions false) =
    Returned (js "() => (a,b)").
Proof.
  split; [by apply finish_nonempty |].
  split; [apply wrap_characterised |].
  split; vm_compute; reflexivity.
Qed.

Lemma wrap_forms_witness :
  js "doStuff();" ≠ [] ∧
  finish (js "doStuff();") = Returned (patch (wrap (js "doStuff();"))).
Proof.
  split; [discriminate |].
  apply (wrap_forms (fun s => s) (js "doStuff();")). discriminate.
Defined.

(** C10: the length test of line 138 runs before the semicolon is dropped
    in line 143, so every non-empty text gets through, and the text [;],
    empty once the semicolon is gone, is wrapped as an empty body. *)
Theorem lone_semicolon_not_rejected (stripComments : jsstring → jsstring) :
  postProcess stripComments (VString (js ";")) (mkOptions false) =
    Returned (js "() => (" ++ [nl; nl] ++ js ")") ∧
  slice_0_m1 (js ";") = [] ∧
  (∀ t, t ≠ [] → ∃ r, finish t = Returned r).
Proof.
  split; [vm_compute; reflexivity |].
  split; [reflexivity |].
  intros t Hne. eexists. by apply finish_nonempty.
Qed.

(** C1: [postProcess] throws exactly on a string whose trimmed, optionally
    stripped and substituted text is empty, and then with the empty-bundle
    message; the substitutions empty no text, so this is a string whose
    trimmed and optionally stripped text is empty; [null] is returned as
    [null], and the empty string throws, for a comment stripper that leaves
    the empty text empty. *)
Theorem postProcess_empty_bundle (stripComments : jsstring → jsstring)
    (Hstrip : stripComments [] = []) :
  (∀ v opts,
     postProcess stripComments v opts = Threw empty_bundle_message ↔
     ∃ s, v = VString s ∧ length (substitute (prepare stripComments opts s)) = 0) ∧
  (∀ t, length (substitute t) = 0 ↔ t = []) ∧
  (∀ v opts m, postProcess stripComments v opts = Threw m → m = empty_bundle_message) ∧
  (∀ opts, postProcess stripComments VNull opts = Null) ∧
  (∀ opts, postProcess stripComments (VString []) opts = Threw empty_bundle_message).
Proof.
  assert (Hfinish : ∀ t m, finish t = Threw m → m = empty_bundle_message ∧ length t = 0).
  { intros t m. unfold finish. destruct (Nat.eqb (length t) 0) eqn:E; [| discriminate].
    intros [= <-]. split; [reflexivity | by apply Nat.eqb_eq]. }
  split; [| split; [| split; [| split]]].
  - intros v opts. split.
    + destruct v as [|s]; simpl; [discriminate |].
      intros H. exists s. split; [reflexivity |]. by apply Hfinish in H as [_ H].
    + intros (s & -> & Hlen). simpl. unfold finish. by rewrite Hlen.
  - apply substitute_empty_iff.
  - intros [|s] opts m; simpl; [discriminate |]. intros H. by apply Hfinish in H as [H _].
  - reflexivity.
  - intros [[|]]; simpl; unfold prepare; simpl; change (trim []) with (@nil char);
      rewrite ?Hstrip; reflexivity.
Qed.

Lemma postProcess_empty_bundle_witness :
  Strip.stripComments_model [] = [] ∧
  postProcess Strip.stripComments_model (VString []) (mkOptions true) =
    Threw empty_bundle_message.
Proof.
  split; [reflexivity |].
  apply (postProcess_empty_bundle Strip.stripComments_model). reflexivity.
Defined.




(** C5: line 159 deletes [stdlib] together with whatever character follows
    it, a line terminator apart: the dot of the pattern is the wildcard. *)
Theorem stdlib_patch_wildcard (stripComments : jsstring → jsstring) :
  (∀ c : char, isLineTerminator c = false → patch_stdlib (js "stdlib" ++ [c]) = []) ∧
  patch_stdlib (js "stdlib.") = [] ∧
  postProcess stripComments (VString (js "use(stdlib2)")) (mkOptions false) =
    Returned (js "() => (" ++ [nl] ++ js "use()" ++ [nl] ++ js ")").
Proof.
  split; [| split; vm_compute; reflexivity].
  intros c Hc. unfold patch_stdlib, replace, re_stdlib, tpl_stdlib. js_literals.
  cbn. rewrite Hc. reflexivity.
Qed.

(** C6: line 162 has a string pattern, so only the first occurrence of the
    [setImmediate] call is rewritten; a second one stays. *)
Theorem setImmediate_patch_first_only (stripComments : jsstring → jsstring) :
  (∀ a b, includes a setImmediate_call = false →
          patch_setImmediate (a ++ setImmediate_call ++ b) = a ++ resultCb_call ++ b) ∧
  postProcess stripComments
    (VString (js "setImmediate(() => resultCb(result));setImmediate(() => resultCb(result))"))
    (mkOptions false) =
    Returned (js "() => (" ++ [nl] ++
              js "resultCb(result);setImmediate(() => resultCb(result))" ++ [nl] ++ js ")").
Proof.
  split; [| vm_compute; reflexivity].
  intros a b Ha. unfold patch_setImmediate.
  apply replace_string_first; [literal_side | assumption].
Qed.

(** C8: on a build error the callback of [bundle] logs the error behind
    [Build error: ], but it calls [writeError] without the destination
    path, so the destination file that [createBundleStream] has opened is
    still there afterwards: the callback removes no file at all. *)
Theorem build_error_keeps_destination (stripComments : jsstring → jsstring)
    (src dest e : jsstring) (argv_stripComments : bool) (w : world) :
  let w' := bundle stripComments src dest argv_stripComments (Some e) None w in
  logged w' = (js "Build error: " ++ e, None) :: logged w ∧
  files w' !! dest = Some [] ∧
  files (on_bundle stripComments src dest argv_stripComments (Some e) None w) = files w.
Proof.
  unfold bundle, on_bundle, writeError, createBundleStream, logError, process_exit.
  change (endsWith (js "Build error:") (js " ")) with false.
  cbn [isWatching exit_code files logged]. cbv zeta.
  change (js "Build error: ") with (js "Build error:" ++ js " ").
  rewrite <- app_assoc.
  destruct (isWatching w); cbn [isWatching exit_code files logged].
  - destruct (exit_code w); cbn [postProcess stream_end files logged];
      by rewrite lookup_insert_eq.
  - by rewrite lookup_insert_eq.
Qed.



(** The two settings side by side, with the modelled stripper. *)
Example comment_eval_both_settings :
  postProcess Strip.stripComments_model (VString (js "/* eval(x) */ run()")) (mkOptions true) =
    Returned (js "() => (" ++ [nl] ++ js " run()" ++ [nl] ++ js ")") ∧
  postProcess Strip.stripComments_model (VString (js "/* eval(x) */ run()")) (mkOptions false) =
    Returned (js "() => (" ++ [nl] ++ js "/* (1, eval)(x) */ run()" ++ [nl] ++ js ")").
Proof. split; vm_compute; reflexivity. Qed.

End Claims.

(** ** The error path *)

Section ErrorPath.

Implicit Types (prefix msg dest src e b : jsstring) (w : world).

Lemma endsWith_space_app prefix : endsWith (prefix ++ js " ") (js " ") = true.
Proof. apply endsWith_suffix. by exists prefix. Qed.

(** [writeError] with a destination path (lines 175-188): the file is gone
    and no other file is touched; one entry is logged, the prefix, made to
    end in a space, followed by the message; nothing is printed; the
    process exits with code 1 unless the watcher is active.  Without a
    path, or with the empty path, no file is touched. *)
Theorem writeError_effect prefix msg (err : option jsstring) dest w (Hdest : dest ≠ []) :
  let w' := writeError prefix msg err (Some dest) w in
  files w' !! dest = None ∧
  (∀ p : jsstring, p ≠ dest → files w' !! p = files w !! p) ∧
  (∃ prefix', logged w' = (prefix' ++ msg, err) :: logged w ∧
              js " " `suffix_of` prefix' ∧
              (prefix' = prefix ∨ (prefix' = prefix ++ js " " ∧ ¬ js " " `suffix_of` prefix))) ∧
  console w' = console w ∧
  exit_code w' = (if isWatching w then exit_code w else Some 1) ∧
  files (writeError prefix msg err None w) = files w ∧
  files (writeError prefix msg err (Some []) w) = files w.
Proof.
  destruct dest as [|c dest]; [contradiction |].
  unfold writeError, logError, unlinkSync, process_exit. cbv zeta.
  cbn [isWatching files logged console exit_code].
  split; [| split; [| split; [| split; [| split; [| split]]]]].
  - destruct (isWatching w); cbn [files]; apply lookup_delete_eq.
  - intros p Hp. destruct (isWatching w); cbn [files]; by apply lookup_delete_ne.
  - destruct (endsWith prefix (js " ")) eqn:E.
    + exists prefix. split; [by destruct (isWatching w) |].
      split; [by apply endsWith_suffix | by left].
    + exists (prefix ++ js " "). split; [by destruct (isWatching w) |].
      split; [by exists prefix |]. right. split; [reflexivity |].
      intros H. apply endsWith_suffix in H. congruence.
  - by destruct (isWatching w).
  - by destruct (isWatching w).
  - by destruct (isWatching w).
  - by destruct (isWatching w).
Qed.

Lemma writeError_effect_witness :
  js "out.js" ≠ [] ∧
  files (writeError (js "Write error:") (js "disk full") None (Some (js "out.js"))
           (mkWorld {[js "out.js" := js "x"]} [] [] true None)) !! js "out.js" = None.
Proof.
  split; [discriminate |].
  apply (writeError_effect (js "Write error:") (js "disk full") None (js "out.js")).
  discriminate.
Defined.

(** A stream error after [createBundleStream] (lines 63-72): the file that
    was opened is removed again, the other files are as before, and the
    error is logged behind [Write error: ]. *)
Theorem stream_error_removes_destination dest msg w (Hdest : dest ≠ []) :
  let w' := on_stream_error dest msg (createBundleStream dest w) in
  files w' !! dest = None ∧
  (∀ p : jsstring, p ≠ dest → files w' !! p = files w !! p) ∧
  logged w' = (js "Write error: " ++ msg, Some msg) :: logged w ∧
  exit_code w' = (if isWatching w then exit_code w else Some 1).
Proof.
  destruct dest as [|c dest]; [contradiction |].
  unfold on_stream_error, writeError, createBundleStream, logError, unlinkSync, process_exit.
  change (endsWith (js "Write error:") (js " ")) with false. cbv zeta.
  cbn [isWatching files logged console exit_code].
  change (js "Write error: ") with (js "Write error:" ++ js " ").
  rewrite <- app_assoc.
  split; [| split; [| split]].
  - destruct (isWatching w); cbn [files]; apply lookup_delete_eq.
  - intros p Hp. destruct (isWatching w); cbn [files];
      rewrite lookup_delete_ne by done; by rewrite lookup_insert_ne.
  - by destruct (isWatching w).
  - by destruct (isWatching w).
Qed.

Lemma stream_error_removes_destination_witness :
  js "out.js" ≠ [] ∧
  files (on_stream_error (js "out.js") (js "EACCES")
           (createBundleStream (js "out.js") (mkWorld ∅ [] [] false None)))
    !! js "out.js" = None.
Proof.
  split; [discriminate |].
  apply (stream_error_removes_destination (js "out.js") (js "EACCES")
           (mkWorld ∅ [] [] false None)).
  discriminate.
Defined.


Section Callback.

Variable stripComments : jsstring → jsstring.


(** A bundle whose processed text is empty (lines 45-52, 138): the
    rejection is caught, the error is logged behind [Write error: ] with
    the empty-bundle message, the destination file is removed, no success
    message is printed, and the process exits with code 1 unless the
    watcher is active. *)
Theorem bundle_empty_removes_destination src dest b (argv : bool) w
    (Hlive : exit_code w = None) (Hdest : dest ≠ [])
    (Htext : substitute (prepare stripComments (mkOptions argv) b) = []) :
  let w' := bundle stripComments src dest argv None (Some b) w in
  files w' !! dest = None ∧
  (∀ p : jsstring, p ≠ dest → files w' !! p = files w !! p) ∧
  logged w' =
    (js "Write error: " ++ empty_bundle_message, Some empty_bundle_message) :: logged w ∧
  console w' = console w ∧
  exit_code w' = (if isWatching w then None else Some 1).
Proof.
  destruct dest as [|c dest]; [contradiction |].
  unfold bundle, on_bundle, createBundleStream. cbn [exit_code]. rewrite Hlive.
  unfold postProcess, finish. rewrite Htext. cbn [length Nat.eqb].
  unfold writeError, logError, unlinkSync, process_exit.
  change (endsWith (js "Write error:") (js " ")) with false. cbv zeta.
  cbn [isWatching files logged console exit_code].
  change (js "Write error: ") with (js "Write error:" ++ js " ").
  rewrite <- app_assoc.
  split; [| split; [| split; [| split]]].
  - destruct (isWatching w); cbn [files]; apply lookup_delete_eq.
  - intros p Hp. destruct (isWatching w); cbn [files];
      rewrite lookup_delete_ne by done; by rewrite lookup_insert_ne.
  - by destruct (isWatching w).
  - by destruct (isWatching w).
  - by destruct (isWatching w).
Qed.

(** A build error without a bundle (lines 34-53): no success message is
    printed, and the process exits with code 1 unless the watcher is
    active, in which case it goes on. *)
Theorem build_error_exit src dest e (argv : bool) w :
  let w' := bundle stripComments src dest argv (Some e) None w in
  console w' = console w ∧
  exit_code w' = (if isWatching w then exit_code w else Some 1).
Proof.
  unfold bundle, on_bundle, writeError, createBundleStream, logError, process_exit.
  change (endsWith (js "Build error:") (js " ")) with false. cbv zeta.
  cbn [isWatching exit_code files logged console].
  destruct (isWatching w); cbn [isWatching exit_code files logged console]; [| done].
  by destruct (exit_code w).
Qed.

End Callback.


(** A surrogate pair is written as the four bytes of its code point, a
    surrogate on its own as the three bytes of U+FFFD. *)
Example encode_surrogates :
  encode [0xD83D; 0xDE00]%N = [0xF0; 0x9F; 0x98; 0x80]%N ∧
  encode [0xDE00; 0x3B]%N = [0xEF; 0xBF; 0xBD; 0x3B]%N ∧
  encode [0xD83D; 0x3B]%N = [0xEF; 0xBF; 0xBD; 0x3B]%N ∧
  encode [0xE9; 0x20AC]%N = [0xC3; 0xA9; 0xE2; 0x82; 0xAC]%N.
Proof. repeat split. Qed.

Lemma bundle_empty_removes_destination_witness :
  js "out.js" ≠ [] ∧
  substitute (prepare (fun s => s) (mkOptions false) (js "  ")) = [] ∧
  files (bundle (fun s => s) (js "in.js") (js "out.js") false None (Some (js "  "))
           (mkWorld ∅ [] [] false None)) !! js "out.js" = None.
Proof.
  split; [discriminate |]. split; [reflexivity |].
  apply (bundle_empty_removes_destination (fun s => s) (js "in.js") (js "out.js") (js "  ")
           false (mkWorld ∅ [] [] false None)).
  - reflexivity.
  - discriminate.
  - reflexivity.
Defined.

End ErrorPath.

(** ** Surrounding whitespace *)

Section Whitespace.

Implicit Types (a b s t : jsstring).

Lemma trimStart_whitespace a s : whitespace a → trimStart (a ++ s) = trimStart s.
Proof.
  intros Ha. induction Ha as [|c a Hc Ha IH]; [reflexivity |].
  simpl. by rewrite Hc.
Qed.

Lemma trimStart_nil_iff s : trimStart s = [] ↔ whitespace s.
Proof.
  split.
  - induction s as [|c s IH]; [constructor |].
    simpl. destruct (isWhiteSpace c) eqn:E; [| discriminate].
    intros H. constructor; [assumption | by apply IH].
  - intros H. rewrite <- (app_nil_r s). by rewrite trimStart_whitespace.
Qed.

Lemma trimStart_app_keep s b : trimStart s ≠ [] → trimStart (s ++ b) = trimStart s ++ b.
Proof.
  induction s as [|c s IH]; simpl; [contradiction |].
  destruct (isWhiteSpace c); [apply IH | reflexivity].
Qed.

Lemma whitespace_rev s : whitespace s → whitespace (rev s).
Proof. apply List.Forall_rev. Qed.

Lemma trimEnd_whitespace s b : whitespace b → trimEnd (s ++ b) = trimEnd s.
Proof.
  intros Hb. unfold trimEnd. rewrite rev_app_distr.
  by rewrite trimStart_whitespace by by apply whitespace_rev.
Qed.

Lemma trim_outer a s b : whitespace a → whitespace b → trim (a ++ s ++ b) = trim s.
Proof.
  intros Ha Hb. unfold trim. rewrite trimStart_whitespace by assumption.
  destruct (trimStart s) as [|c x] eqn:E.
  - apply trimStart_nil_iff in E.
    assert (H : trimStart (s ++ b) = []).
    { apply trimStart_nil_iff. by apply Forall_app. }
    by rewrite H.
  - rewrite trimStart_app_keep by (rewrite E; discriminate).
    rewrite E. by apply trimEnd_whitespace.
Qed.

Lemma trim_nil_iff s : trim s = [] ↔ whitespace s.
Proof.
  split.
  - unfold trim, trimEnd. intros H.
    apply (f_equal (@rev char)) in H. rewrite rev_involutive in H. cbn [rev] in H.
    apply trimStart_nil_iff, whitespace_rev in H. rewrite rev_involutive in H.
    apply trimStart_nil_iff.
    destruct (trimStart s) as [|c x] eqn:E; [reflexivity |].
    exfalso. apply Forall_cons in H. destruct H as [Hc _].
    assert (Hs : trimStart (trimStart s) = trimStart s).
    { clear. induction s as [|d s IH]; [reflexivity |].
      simpl. destruct (isWhiteSpace d) eqn:Ed; [assumption |]. simpl. by rewrite Ed. }
    rewrite E in Hs. simpl in Hs. rewrite Hc in Hs.
    assert (Hlen : length (trimStart x) ≤ length x).
    { clear. induction x as [|d x IH]; simpl; [lia |].
      destruct (isWhiteSpace d); simpl; lia. }
    rewrite Hs in Hlen. simpl in Hlen. lia.
  - intros H. unfold trim. apply trimStart_nil_iff in H. by rewrite H.
Qed.

(** Whitespace around the bundle makes no difference to [postProcess]
    (line 107), whatever the options and the comment stripper. *)
Theorem postProcess_ignores_outer_whitespace (stripComments : jsstring → jsstring)
    a s b (opts : options) (Ha : whitespace a) (Hb : whitespace b) :
  postProcess stripComments (VString (a ++ s ++ b)) opts =
  postProcess stripComments (VString s) opts.
Proof. unfold postProcess, prepare. by rewrite trim_outer. Qed.

Lemma postProcess_ignores_outer_whitespace_witness :
  postProcess (fun s => s) (VString (js "  " ++ js "run()" ++ [nl])) (mkOptions false) =
  postProcess (fun s => s) (VString (js "run()")) (mkOptions false).
Proof.
  apply (postProcess_ignores_outer_whitespace (fun s => s) (js "  ") (js "run()") [nl]).
  - repeat constructor.
  - repeat constructor.
Defined.

(** Without comment stripping, [postProcess] throws exactly on the strings
    that consist of whitespace and line terminators only (lines 107 and
    138): no bundle with any other character is rejected. *)
Theorem postProcess_throws_iff_whitespace (stripComments : jsstring → jsstring) s :
  postProcess stripComments (VString s) (mkOptions false) = Threw empty_bundle_message ↔
  whitespace s.
Proof.
  unfold postProcess, prepare, finish. cbn [opt_stripComments].
  rewrite <- trim_nil_iff, <- substitute_empty_iff.
  destruct (Nat.eqb (length (substitute (trim s))) 0) eqn:E.
  - apply Nat.eqb_eq in E. by split.
  - apply Nat.eqb_neq in E. by split.
Qed.

End Whitespace.

(** ** The literal rules *)

Section LiteralRules.

Implicit Types (a b t : jsstring).

Lemma rule_import_replace_all t :
  rule_import t =
  replace_all (js ".import(") (js "[" ++ [dq] ++ js "import" ++ [dq] ++ js "](") t.
Proof. reflexivity. Qed.

(** Line 114 rewrites every [.import(] of the text, one by one, leaves
    none behind, and changes nothing when it is run again. *)
Theorem rule_import_every_occurrence :
  (∀ a b, rule_import (a ++ js ".import(" ++ b) =
          rule_import a ++ (js "[" ++ [dq] ++ js "import" ++ [dq] ++ js "](") ++ rule_import b) ∧
  (∀ t, includes (rule_import t) (js ".import(") = false) ∧
  (∀ t, rule_import (rule_import t) = rule_import t).
Proof.
  assert (Hnone : ∀ t, includes (rule_import t) (js ".import(") = false).
  { intros t. rewrite rule_import_replace_all.
    apply replace_all_no_new; try literal_side. by left. }
  split; [| split].
  - intros a b. rewrite !rule_import_replace_all.
    apply replace_all_occurrence; literal_side.
  - exact Hnone.
  - intros t. rewrite (rule_import_replace_all (rule_import t)).
    apply replace_all_absent; [literal_side | apply Hnone].
Qed.

(** After lines 130-131 the text holds neither [<!--] nor [-->]. *)
Theorem rule_html_no_delimiter t :
  includes (rule_html t) (js "<!--") = false ∧
  includes (rule_html t) (js "-->") = false.
Proof.
  rewrite rule_html_replace_all. split.
  - apply replace_all_no_new; try literal_side.
    right. apply replace_all_no_new; try literal_side. by left.
  - apply replace_all_no_new; try literal_side. by left.
Qed.

End LiteralRules.

(** ** Texts the eval rules pass over *)

Section Forward.

Implicit Types (b s t x y z w q : jsstring) (k : continuation).

Lemma step_char_forward (p : char → bool) (st : mstate) k (res : mstate) :
  step_char p st k = Some res →
  ∃ st', (∃ x, after st = x ++ after st') ∧ k st' = Some res.
Proof.
  unfold step_char. destruct (after st) as [|c rest] eqn:E; [discriminate |].
  destruct (p c); [| discriminate]. intros H.
  eexists. split; [| exact H]. by exists [c].
Qed.

Lemma star_loop_forward (body : mstate → continuation → option mstate) :
  (∀ st k res, body st k = Some res →
               ∃ st', (∃ x, after st = x ++ after st') ∧ k st' = Some res) →
  ∀ n st k res, star_loop body n st k = Some res →
                ∃ st', (∃ x, after st = x ++ after st') ∧ k st' = Some res.
Proof.
  intros Hbody. induction n as [|n IH]; intros st k res H; simpl in H.
  - exists st. split; [by exists [] | assumption].
  - destruct (body st _) as [r|] eqn:E.
    + injection H as ->. apply Hbody in E. destruct E as (st1 & [x Hx] & Hk).
      destruct (progress st st1); [| discriminate].
      apply IH in Hk. destruct Hk as (st' & [y Hy] & Hk).
      exists st'. split; [| assumption].
      exists (x ++ y). by rewrite Hx, Hy, app_assoc.
    + exists st. split; [by exists [] | assumption].
Qed.

(** The matcher only moves forward: a match hands to its continuation a
    state at a later position of the same input. *)
Lemma rmatch_forward (m : bool) (r : regex) :
  ∀ (st : mstate) k (res : mstate),
    rmatch m r st k = Some res →
    ∃ st', (∃ x, after st = x ++ after st') ∧ k st' = Some res.
Proof.
  induction r as [| c | | neg items | | | | r1 IH1 r2 IH2 | r1 IH1 | r1 IH1 | r1 IH1 | n r1 IH1];
    intros st k res H; cbn [rmatch] in H.
  - exists st. split; [by exists [] | assumption].
  - by apply step_char_forward in H.
  - by apply step_char_forward in H.
  - by apply step_char_forward in H.
  - destruct (xorb _ _); [| discriminate]. exists st. split; [by exists [] | assumption].
  - destruct (at_bol _ _); [| discriminate]. exists st. split; [by exists [] | assumption].
  - destruct (at_eol _ _); [| discriminate]. exists st. split; [by exists [] | assumption].
  - apply IH1 in H. destruct H as (st1 & [x Hx] & H).
    apply IH2 in H. destruct H as (st2 & [y Hy] & H).
    exists st2. split; [| assumption]. exists (x ++ y). by rewrite Hx, Hy, app_assoc.
  - by apply (star_loop_forward _ IH1) in H.
  - apply IH1 in H. destruct H as (st1 & [x Hx] & H).
    apply (star_loop_forward _ IH1) in H. destruct H as (st2 & [y Hy] & H).
    exists st2. split; [| assumption]. exists (x ++ y). by rewrite Hx, Hy, app_assoc.
  - destruct (rmatch m r1 st _) as [r|] eqn:E.
    + injection H as ->. apply IH1 in E. destruct E as (st1 & Hx & H).
      destruct (progress st st1); [| discriminate]. by exists st1.
    + exists st. split; [by exists [] | assumption].
  - apply IH1 in H. destruct H as (st1 & Hx & H).
    exists (capture n st st1). split; assumption.
Qed.

Lemma includes_startsWith s q : startsWith s q = true → includes s q = true.
Proof. intros H. destruct s; simpl; by rewrite H. Qed.

Lemma includes_app_r x y q : includes y q = true → includes (x ++ y) q = true.
Proof.
  intros H. induction x as [|c x IH]; [assumption |].
  simpl. rewrite IH. apply orb_true_r.
Qed.

Lemma includes_spec s q : includes s q = true ↔ ∃ a b, s = a ++ q ++ b.
Proof.
  split.
  - induction s as [|c s IH]; simpl; intros H.
    + rewrite orb_false_r in H. apply startsWith_prefix in H. destruct H as [k Hk].
      exists [], k. assumption.
    + apply orb_true_iff in H. destruct H as [H | H].
      * apply startsWith_prefix in H. destruct H as [k Hk]. exists [], k. assumption.
      * destruct (IH H) as (a & b & ->). by exists (c :: a), b.
  - intros (a & b & ->). apply includes_app_r, includes_startsWith, startsWith_app.
Qed.

(** A match of the bare-eval pattern begins with [eval(]. *)
Lemma eval_match_startsWith b s (st' : mstate) :
  match_at re_eval b s = Some st' → startsWith s (js "eval(") = true.
Proof.
  unfold match_at, re_eval. cbn [source flag_m rseq rmatch].
  destruct (xorb _ _); [| discriminate].
  rewrite rmatch_rstr. cbn [after before pos caps capture].
  destruct (startsWith s (js "eval")) eqn:E; [| discriminate].
  unfold arguments. cbn [rseq rmatch]. unfold step_char at 1. cbn [after capture].
  destruct (skipn (length (js "eval")) s) as [|c r] eqn:Es; [discriminate |].
  destruct (N.eqb (ch "(") c) eqn:Ec; [| discriminate]. intros _.
  apply N.eqb_eq in Ec. subst c.
  rewrite (startsWith_skipn _ _ E), Es.
  change (js "eval(") with (js "eval" ++ [ch "("]).
  apply startsWith_prefix. exists r. by rewrite <- app_assoc.
Qed.

(** A match of the member-eval pattern has [eval(] in it. *)
Lemma member_eval_match_includes b s (st' : mstate) :
  match_at re_member_eval b s = Some st' → includes s (js "eval(") = true.
Proof.
  unfold match_at, re_member_eval. cbn [source flag_m rseq rmatch]. intros H.
  apply rmatch_forward in H. destruct H as (st1 & [x Hx] & H).
  apply (star_loop_forward _ (rmatch_forward false segment)) in H.
  destruct H as (st2 & [y Hy] & H).
  rewrite rmatch_rstr in H.
  destruct (startsWith (after st2) (js "eval")) eqn:E; [| discriminate].
  unfold arguments in H. cbn [rseq rmatch] in H. unfold step_char at 1 in H.
  cbn [after before pos caps capture] in H.
  destruct (skipn (length (js "eval")) (after st2)) as [|c r] eqn:Es; [discriminate |].
  destruct (N.eqb (ch "(") c) eqn:Ec; [| discriminate].
  apply N.eqb_eq in Ec. subst c. clear H.
  cbn [after] in Hx. rewrite Hx, Hy.
  apply includes_app_r, includes_app_r, includes_startsWith.
  rewrite (startsWith_skipn _ _ E), Es.
  change (js "eval(") with (js "eval" ++ [ch "("]).
  apply startsWith_prefix. exists r. by rewrite <- app_assoc.
Qed.

(** A replacement whose matches all hold [q] leaves a text without [q]
    as it is. *)
Lemma replace_from_absent (re : RegExp) (tpl : list titem) q :
  (∀ b s st', match_at re b s = Some st' → includes s q = true) →
  ∀ s b (f : bool), includes s q = false → replace_from re tpl b s 0 f = s.
Proof.
  intros Hm. induction s as [|c s IH]; intros b f Hs; cbn [replace_from].
  - destruct (f && negb (flag_g re))%bool; [reflexivity |].
    destruct (match_at re b []) as [st'|] eqn:E; [| reflexivity].
    apply Hm in E. congruence.
  - destruct (f && negb (flag_g re))%bool; [reflexivity |].
    destruct (match_at re b (c :: s)) as [st'|] eqn:E.
    + apply Hm in E. congruence.
    + f_equal. apply IH. by apply includes_tail in Hs.
Qed.

Lemma rule_member_eval_absent t :
  includes t (js "eval(") = false → rule_member_eval t = t.
Proof.
  intros Ht. apply (replace_from_absent _ _ (js "eval(")); [| assumption].
  apply member_eval_match_includes.
Qed.

Lemma rule_eval_absent t : includes t (js "eval(") = false → rule_eval t = t.
Proof.
  intros Ht. apply (replace_from_absent _ _ (js "eval(")); [| assumption].
  intros b s st' H. by apply includes_startsWith, (eval_match_startsWith b s st').
Qed.

(** A text without [eval(] passes both eval rules unchanged (lines
    117-125). *)
Theorem eval_rules_need_eval_call t (Ht : includes t (js "eval(") = false) :
  rule_member_eval t = t ∧ rule_eval t = t.
Proof. split; [by apply rule_member_eval_absent | by apply rule_eval_absent]. Qed.

Lemma eval_rules_need_eval_call_witness :
  includes (js "medieval.run(evaluate)") (js "eval(") = false ∧
  rule_eval (js "medieval.run(evaluate)") = js "medieval.run(evaluate)".
Proof.
  split; [reflexivity |].
  apply (eval_rules_need_eval_call (js "medieval.run(evaluate)")). reflexivity.
Defined.

End Forward.

(** ** The two eval rules in a row *)

Section Composition.

Implicit Types (s t w y z args : jsstring) (ids : list jsstring).

Lemma same_before_char (x : char) y :
  Forall (fun c => N.eqb c x = false) y →
  ∀ w z k, Forall (fun c => N.eqb c x = false) w →
           y ++ x :: z = w ++ x :: k → y = w.
Proof.
  intros Hy. induction Hy as [|c y Hc Hy IH]; intros w z k Hw H.
  - destruct Hw as [|d w Hd Hw]; [reflexivity |].
    simpl in H. injection H as -> _. by rewrite N.eqb_refl in Hd.
  - destruct Hw as [|d w Hd Hw]; simpl in H.
    + injection H as -> _. by rewrite N.eqb_refl in Hc.
    + injection H as -> H. f_equal. by apply (IH w z k).
Qed.

(** An occurrence of [w(], in a text cut at an opening parenthesis, ends
    at that parenthesis or lies behind it. *)
Lemma includes_split_at (x : char) w y z :
  Forall (fun c => N.eqb c x = false) w →
  Forall (fun c => N.eqb c x = false) y →
  includes (y ++ x :: z) (w ++ [x]) = true →
  w `suffix_of` y ∨ includes z (w ++ [x]) = true.
Proof.
  intros Hw Hy. induction Hy as [|c y Hc Hy IH]; intros H.
  - cbn [app] in H. simpl in H. apply orb_true_iff in H. destruct H as [H | H]; [| by right].
    left. destruct Hw as [|d w Hd Hw]; [done |].
    simpl in H. apply andb_true_iff in H. destruct H as [H _].
    apply N.eqb_eq in H. subst d. by rewrite N.eqb_refl in Hd.
  - change ((c :: y) ++ x :: z) with (c :: y ++ x :: z) in H.
    cbn [includes] in H. apply orb_true_iff in H. destruct H as [H | H].
    + left. apply startsWith_prefix in H. destruct H as [k Hk].
      rewrite <- app_assoc in Hk. cbn [app] in Hk.
      change (c :: y ++ x :: z) with ((c :: y) ++ x :: z) in Hk.
      apply same_before_char in Hk; [by rewrite Hk | by constructor | assumption].
    + destruct (IH H) as [Hs | Hz]; [left; by apply suffix_cons_r | by right].
Qed.

Lemma includes_needs_char (x : char) w s :
  Forall (fun c => N.eqb c x = false) s → includes s (w ++ [x]) = false.
Proof.
  intros Hs. destruct (includes s (w ++ [x])) eqn:E; [| reflexivity].
  apply includes_spec in E. destruct E as (a & b & ->).
  apply Forall_app in Hs. destruct Hs as [_ Hs].
  apply Forall_app in Hs. destruct Hs as [Hs _].
  apply Forall_app in Hs. destruct Hs as [_ Hs].
  apply Forall_cons in Hs. destruct Hs as [Hx _]. by rewrite N.eqb_refl in Hx.
Qed.

Lemma word_char_no_paren (c : char) : isWordChar c = true → N.eqb c (ch "(") = false.
Proof.
  intros H. destruct (N.eqb c (ch "(")) eqn:E; [| reflexivity].
  apply N.eqb_eq in E. subst c. vm_compute in H. discriminate.
Qed.

Lemma dotted_no_opening_paren ids : Forall identifier ids → no_opening_paren (dotted ids).
Proof.
  intros H. induction H as [|w ids [_ Hw] Hids IH]; [constructor |].
  cbn [dotted]. apply Forall_app. split.
  - induction Hw as [|c w Hc Hw IHw]; constructor; [by apply word_char_no_paren | assumption].
  - constructor; [reflexivity | assumption].
Qed.

(** The indirect member call has no [eval(] in it. *)
Lemma indirect_call_no_eval_call ids args :
  Forall identifier ids → no_opening_paren args →
  includes (js "(1, " ++ dotted ids ++ js "eval)(" ++ args ++ js ")") (js "eval(") = false.
Proof.
  intros Hids Hargs.
  destruct (includes _ _) eqn:E; [| reflexivity]. exfalso.
  change (js "(1, ") with ([] ++ ch "(" :: js "1, ") in E.
  change (js "eval)(") with (js "eval)" ++ [ch "("]) in E.
  change (js "eval(") with (js "eval" ++ [ch "("]) in E.
  rewrite <- !app_assoc in E. cbn [app] in E.
  change (ch "(" :: js "1, " ++ dotted ids ++ js "eval)" ++ ch "(" :: args ++ js ")")
    with ([] ++ ch "(" :: js "1, " ++ dotted ids ++ js "eval)" ++ ch "(" :: args ++ js ")") in E.
  apply includes_split_at in E; [| repeat constructor | constructor].
  destruct E as [[k Hk] | E].
  { destruct k; discriminate. }
  replace (js "1, " ++ dotted ids ++ js "eval)" ++ ch "(" :: args ++ js ")")
    with ((js "1, " ++ dotted ids ++ js "eval)") ++ ch "(" :: args ++ js ")") in E
    by (by rewrite <- !app_assoc).
  apply includes_split_at in E; [| repeat constructor |].
  - destruct E as [Hs | E].
    + change (js "eval)") with (js "eval" ++ [ch ")"]) in Hs.
      change (js "eval") with (js "eva" ++ [ch "l"]) in Hs at 1.
      rewrite !app_assoc in Hs. apply suffix_snoc_inv_1 in Hs. discriminate.
    + rewrite includes_needs_char in E; [discriminate |].
      apply Forall_app. split; [assumption | repeat constructor].
  - apply Forall_app. split; [repeat constructor |].
    apply Forall_app. split; [by apply dotted_no_opening_paren | repeat constructor].
Qed.

(** What line 117 has written for a member call, line 125 leaves alone,
    as the comment of lines 122-124 intends: the two rules in a row turn
    [id1. ... idn.eval(args)] into the one indirect call. *)
Theorem member_eval_then_eval ids args
    (Hne : ids ≠ []) (Hids : Forall identifier ids)
    (Hclose : no_closing_paren args) (Hopen : no_opening_paren args) :
  rule_eval (rule_member_eval (dotted ids ++ js "eval(" ++ args ++ js ")")) =
  js "(1, " ++ dotted ids ++ js "eval)(" ++ args ++ js ")".
Proof.
  rewrite rule_member_eval_call by assumption.
  apply rule_eval_absent. by apply indirect_call_no_eval_call.
Qed.

Lemma member_eval_then_eval_witness :
  rule_eval (rule_member_eval (dotted [js "a"; js "b"] ++ js "eval(" ++ js "x, y" ++ js ")")) =
  js "(1, " ++ dotted [js "a"; js "b"] ++ js "eval)(" ++ js "x, y" ++ js ")".
Proof.
  apply (member_eval_then_eval [js "a"; js "b"] (js "x, y")).
  - discriminate.
  - repeat constructor; vm_compute; congruence.
  - repeat constructor.
  - repeat constructor.
Defined.

End Composition.

(** ** The Buffer rule, line by line *)

Section BufferRule.

Implicit Types (b l s t : jsstring) (rest : list (char * jsstring)).

Lemma buffer_match_at b s :
  match_at re_buffer b s =
  if at_bol true (mkState b s 0 [])
  then if startsWith s (js "(function (Buffer){")
       then if at_eol true
                 (mkState (rev (js "(function (Buffer){") ++ b)
                    (skipn (length (js "(function (Buffer){")) s)
                    (0 + length (js "(function (Buffer){")) [])
            then Some (mkState (rev (js "(function (Buffer){") ++ b)
                         (skipn (length (js "(function (Buffer){")) s)
                         (0 + length (js "(function (Buffer){")) [])
            else None
       else None
  else None.
Proof.
  unfold match_at, re_buffer. cbn [source flag_m rseq rmatch].
  destruct (at_bol _ _); [| reflexivity].
  rewrite rmatch_rstr. cbn [after before pos caps].
  destruct (startsWith _ _); reflexivity.
Qed.

Lemma buffer_match_startsWith b s (st' : mstate) :
  match_at re_buffer b s = Some st' → startsWith s (js "(function (Buffer){") = true.
Proof.
  rewrite buffer_match_at. destruct (at_bol _ _); [| discriminate].
  destruct (startsWith _ _); [reflexivity | discriminate].
Qed.

Lemma rule_buffer_absent t :
  includes t (js "(function (Buffer){") = false → rule_buffer t = t.
Proof.
  intros Ht. apply (replace_from_absent _ _ (js "(function (Buffer){")); [| assumption].
  intros b s st' H. by apply includes_startsWith, (buffer_match_startsWith b s st').
Qed.

(** With the global flag, what was found before is of no account. *)
Lemma replace_from_global (re : RegExp) (tpl : list titem) :
  flag_g re = true →
  ∀ s (n : nat) b (f f' : bool),
    replace_from re tpl b s n f = replace_from re tpl b s n f'.
Proof.
  intros Hg. induction s as [|c s IH]; intros n b f f'.
  - destruct n; cbn [replace_from]; [| reflexivity]. by rewrite Hg, !andb_false_r.
  - destruct n as [|n]; cbn [replace_from]; [| apply IH].
    rewrite Hg, !andb_false_r.
    destruct (match_at re b (c :: s)) as [st'|]; [reflexivity |].
    f_equal. apply IH.
Qed.

(** Inside a line nothing matches: the rest of the line is copied. *)
Lemma buffer_inside_line l :
  Forall (fun c => isLineTerminator c = false) l →
  ∀ (c : char) b s (f : bool),
    isLineTerminator c = false →
    replace_from re_buffer tpl_buffer (c :: b) (l ++ s) 0 f =
    l ++ replace_from re_buffer tpl_buffer (rev l ++ c :: b) s 0 f.
Proof.
  intros Hl. induction Hl as [|d l Hd Hl IH]; intros c b s f Hc; [reflexivity |].
  cbn [app replace_from]. change (flag_g re_buffer) with true. rewrite andb_false_r.
  rewrite buffer_match_at. cbn [at_bol before]. rewrite Hc. cbn [andb].
  f_equal. rewrite IH by assumption. cbn [rev]. by rewrite <- app_assoc.
Qed.

(** A line that passes the three tests of the pattern is the header. *)
Lemma buffer_whole_line l s :
  Forall (fun c => isLineTerminator c = false) l →
  match s with [] => True | c :: _ => isLineTerminator c = true end →
  startsWith (l ++ s) (js "(function (Buffer){") = true →
  match skipn (length (js "(function (Buffer){")) (l ++ s) with
  | [] => True
  | c :: _ => isLineTerminator c = true
  end →
  l = js "(function (Buffer){".
Proof.
  intros Hl Hs Hp He. pose proof (startsWith_skipn _ _ Hp) as Heq.
  set (k := skipn (length (js "(function (Buffer){")) (l ++ s)) in *.
  apply app_eq_inv in Heq. destruct Heq as [(x & -> & Hk) | (x & Hh & Hx)].
  - destruct x as [|d x]; [by rewrite app_nil_r |].
    exfalso. rewrite Hk in He. cbn [app] in He.
    apply Forall_app in Hl. destruct Hl as [_ Hl].
    apply Forall_cons in Hl. destruct Hl as [Hd _]. congruence.
  - destruct x as [|d x]; [by rewrite app_nil_r in Hh |].
    exfalso. rewrite Hx in Hs. cbn [app] in Hs.
    assert (Hheader : Forall (fun c => isLineTerminator c = false) (js "(function (Buffer){"))
      by (vm_compute; repeat constructor).
    rewrite Hh in Hheader.
    apply Forall_app in Hheader. destruct Hheader as [_ Hheader].
    apply Forall_cons in Hheader. destruct Hheader as [Hd _]. congruence.
Qed.

(** One line, from its start. *)
Lemma buffer_line l b s (f : bool) :
  Forall (fun c => isLineTerminator c = false) l →
  match b with [] => True | c :: _ => isLineTerminator c = true end →
  match s with [] => True | c :: _ => isLineTerminator c = true end →
  replace_from re_buffer tpl_buffer b (l ++ s) 0 f =
  drop_Buffer l ++ replace_from re_buffer tpl_buffer (rev l ++ b) s 0 true.
Proof.
  intros Hl Hb Hs.
  assert (Hbol : at_bol true (mkState b (l ++ s) 0 []) = true).
  { unfold at_bol. cbn [before]. destruct b; [reflexivity | by rewrite Hb]. }
  assert (Heol : ∀ b' i cs x, at_eol true (mkState b' x i cs) = true ↔
                 match x with [] => True | c :: _ => isLineTerminator c = true end).
  { intros b' i cs x. unfold at_eol. cbn [after]. destruct x; [done |]. by cbn [andb]. }
  unfold drop_Buffer. case_bool_decide as Heq.
  - subst l.
    rewrite (replace_from_match _ _ _ _ _
               (mkState (rev (js "(function (Buffer){") ++ b) s
                  (0 + length (js "(function (Buffer){")) []));
      [reflexivity | reflexivity | discriminate | | reflexivity].
    rewrite buffer_match_at, Hbol, startsWith_app, drop_app_length.
    by rewrite (proj2 (Heol _ _ _ s) Hs).
  - assert (Hnone : match_at re_buffer b (l ++ s) = None).
    { rewrite buffer_match_at, Hbol.
      destruct (startsWith (l ++ s) (js "(function (Buffer){")) eqn:Ep; [| reflexivity].
      destruct (at_eol _ _) eqn:Ee; [| reflexivity].
      exfalso. apply Heq. apply (buffer_whole_line l s); try assumption.
      by apply Heol in Ee. }
    destruct l as [|c l].
    + cbn [app rev]. by apply replace_from_global.
    + cbn [app replace_from]. change (flag_g re_buffer) with true. rewrite andb_false_r.
      change (c :: l ++ s) with ((c :: l) ++ s). rewrite Hnone. cbn [app]. f_equal.
      apply Forall_cons in Hl. destruct Hl as [Hc Hl].
      rewrite buffer_inside_line by assumption.
      cbn [rev]. rewrite <- app_assoc. cbn [app]. f_equal. by apply replace_from_global.
Qed.

Lemma join_rest_head rest :
  Forall (fun tl => isLineTerminator (fst tl) = true) rest →
  match join_rest rest with [] => True | c :: _ => isLineTerminator c = true end.
Proof. intros H. destruct H as [|[t l] rest Ht _]; [done | exact Ht]. Qed.

(** The further lines, from a line terminator. *)
Lemma buffer_rest rest :
  Forall (fun tl => isLineTerminator (fst tl) = true) rest →
  Forall (fun tl => Forall (fun c => isLineTerminator c = false) (snd tl)) rest →
  ∀ b (f : bool),
    replace_from re_buffer tpl_buffer b (join_rest rest) 0 f =
    join_rest (List.map (fun tl => (fst tl, drop_Buffer (snd tl))) rest).
Proof.
  intros Ht. induction Ht as [|[t l] rest Ht Hts IH]; intros Hls b f.
  - cbn [join_rest List.map replace_from]. change (flag_g re_buffer) with true.
    rewrite andb_false_r, buffer_match_at.
    by destruct (at_bol _ _).
  - apply Forall_cons in Hls. destruct Hls as [Hl Hls]. cbn [fst snd] in Ht, Hl.
    cbn [join_rest List.map fst snd replace_from]. change (flag_g re_buffer) with true.
    rewrite andb_false_r, buffer_match_at.
    assert (Hp : startsWith (t :: l ++ join_rest rest) (js "(function (Buffer){") = false).
    { change (js "(function (Buffer){") with (ch "(" :: js "function (Buffer){").
      cbn [startsWith]. destruct (N.eqb t (ch "(")) eqn:E; [| reflexivity].
      apply N.eqb_eq in E. subst t. vm_compute in Ht. discriminate. }
    rewrite Hp. destruct (at_bol _ _); f_equal;
      (rewrite buffer_line; [by rewrite IH | assumption | exact Ht | by apply join_rest_head]).
Qed.

Lemma join_split_lines s : join_lines (split_lines s) = s.
Proof.
  induction s as [|c s IH]; [reflexivity |].
  cbn [split_lines]. destruct (split_lines s) as [l rest].
  unfold join_lines in *. cbn [fst snd] in *.
  destruct (isLineTerminator c); cbn [fst snd join_rest app]; by rewrite IH.
Qed.

Lemma split_lines_shape s :
  Forall (fun c => isLineTerminator c = false) (fst (split_lines s)) ∧
  Forall (fun tl => isLineTerminator (fst tl) = true) (snd (split_lines s)) ∧
  Forall (fun tl => Forall (fun c => isLineTerminator c = false) (snd tl))
    (snd (split_lines s)).
Proof.
  induction s as [|c s (IH1 & IH2 & IH3)]; [by repeat constructor |].
  cbn [split_lines]. destruct (split_lines s) as [l rest]. cbn [fst snd] in *.
  destruct (isLineTerminator c) eqn:E; cbn [fst snd].
  - split; [constructor |]. split; by constructor.
  - split; [by constructor |]. by split.
Qed.

(** Line 136 works line by line: a line that is exactly
    [(function (Buffer){] becomes [(function (){], every other line and
    every line terminator stays as it is. *)
Theorem rule_buffer_linewise s :
  rule_buffer s = join_lines (map_lines drop_Buffer (split_lines s)) ∧
  join_lines (split_lines s) = s.
Proof.
  split; [| apply join_split_lines].
  pose proof (join_split_lines s) as Hjoin.
  destruct (split_lines_shape s) as (H1 & H2 & H3).
  destruct (split_lines s) as [l rest]. cbn [fst snd] in *.
  rewrite <- Hjoin. unfold rule_buffer, replace, join_lines, map_lines. cbn [fst snd].
  rewrite buffer_line; [| assumption | exact I | by apply join_rest_head].
  by rewrite buffer_rest.
Qed.

End BufferRule.

(** ** Bundles without any of the patterns *)

Section Untouched.

Lemma substitute_absent (t : jsstring) :
  includes t (js ".import(") = false →
  includes t (js "eval(") = false →
  includes t (js "<!--") = false →
  includes t (js "-->") = false →
  includes t (js "(function (Buffer){") = false →
  substitute t = t.
Proof.
  intros Himport Heval Hopen Hclose Hbuffer. unfold substitute.
  rewrite rule_import_replace_all, replace_all_absent; [| literal_side | assumption].
  rewrite rule_member_eval_absent, rule_eval_absent by assumption.
  rewrite rule_html_replace_all.
  rewrite (replace_all_absent (js "<!--")); [| literal_side | assumption].
  rewrite replace_all_absent; [| literal_side | assumption].
  by apply rule_buffer_absent.
Qed.

(** A text that holds none of [.import(], [eval(], [<!--], [-->] and
    [(function (Buffer){] comes out of the substitutions of lines 113-136
    as it went in. *)
Theorem substitute_untouched (t : jsstring)
    (Himport : includes t (js ".import(") = false)
    (Heval : includes t (js "eval(") = false)
    (Hopen : includes t (js "<!--") = false)
    (Hclose : includes t (js "-->") = false)
    (Hbuffer : includes t (js "(function (Buffer){") = false) :
  substitute t = t.
Proof. by apply substitute_absent. Qed.

Lemma substitute_untouched_witness :
  substitute (js "module.exports = compute(important)") =
  js "module.exports = compute(important)".
Proof.
  apply (substitute_untouched (js "module.exports = compute(important)")); reflexivity.
Defined.

End Untouched.

(** ** The shape of the result *)

Section Shape.

Implicit Types (a b s t u q x : jsstring).

Lemma startsWith_foreign_r q :
  ∀ u b, Forall (fun c : char => existsb (N.eqb c) q = false) b →
         startsWith (u ++ b) q = startsWith u q.
Proof.
  induction q as [|x q IH]; intros u b Hb; [reflexivity |].
  destruct u as [|d u].
  - cbn [app]. destruct Hb as [|c b Hc Hb]; [reflexivity |].
    cbn [startsWith existsb] in *. apply orb_false_iff in Hc. destruct Hc as [Hc _].
    by rewrite Hc.
  - cbn [app startsWith]. f_equal. apply IH.
    clear -Hb. induction Hb as [|c b Hc Hb IHb]; constructor; [| assumption].
    cbn [existsb] in Hc. apply orb_false_iff in Hc. tauto.
Qed.

Lemma includes_foreign q b :
  q ≠ [] → Forall (fun c : char => existsb (N.eqb c) q = false) b → includes b q = false.
Proof.
  intros Hq Hb. induction Hb as [|c b Hc Hb IH].
  - destruct q; [contradiction | reflexivity].
  - cbn [includes]. rewrite IH, orb_false_r.
    destruct q as [|x q]; [contradiction |].
    cbn [startsWith existsb] in *. apply orb_false_iff in Hc. destruct Hc as [Hc _].
    by rewrite Hc.
Qed.

Lemma includes_foreign_r q u b :
  q ≠ [] → Forall (fun c : char => existsb (N.eqb c) q = false) b →
  includes (u ++ b) q = includes u q.
Proof.
  intros Hq Hb. induction u as [|d u IH].
  - cbn [app]. rewrite includes_foreign by assumption.
    destruct q; [contradiction | reflexivity].
  - change ((d :: u) ++ b) with (d :: u ++ b). cbn [includes].
    rewrite IH. f_equal.
    change (d :: u ++ b) with ((d :: u) ++ b). by apply startsWith_foreign_r.
Qed.

Lemma includes_foreign_l q a s :
  q ≠ [] → Forall (fun c : char => existsb (N.eqb c) q = false) a →
  includes (a ++ s) q = includes s q.
Proof.
  intros Hq Ha. induction Ha as [|c a Hc Ha IH]; [reflexivity |].
  change ((c :: a) ++ s) with (c :: a ++ s). cbn [includes]. rewrite IH.
  destruct q as [|x q]; [contradiction |].
  cbn [startsWith existsb] in *. apply orb_false_iff in Hc. destruct Hc as [Hc _].
  by rewrite Hc.
Qed.

Ltac foreign_side := solve [ discriminate | vm_compute; repeat constructor ].

(** Wrapping neither adds nor hides a mention of [regeneratorRuntime]. *)
Lemma wrap_keeps_regenerator t :
  includes (wrap t) (js "regeneratorRuntime") = includes t (js "regeneratorRuntime").
Proof.
  assert (Hu : ∀ u, includes
                      (if (startsWith u (js "(") && endsWith u (js ")"))%bool
                       then js "() => " ++ u
                       else js "() => (" ++ [nl] ++ u ++ [nl] ++ js ")")
                      (js "regeneratorRuntime") = includes u (js "regeneratorRuntime")).
  { intros u. destruct (_ && _)%bool.
    - apply includes_foreign_l; foreign_side.
    - rewrite includes_foreign_l by foreign_side.
      rewrite includes_foreign_l by foreign_side.
      apply includes_foreign_r; foreign_side. }
  unfold wrap. rewrite Hu. destruct (endsWith t (js ";")) eqn:E; [| reflexivity].
  apply endsWith_suffix in E. destruct E as [u ->].
  change (js ";") with [ch ";"]. rewrite slice_0_m1_app.
  symmetry. apply includes_foreign_r; foreign_side.
Qed.

Lemma wrap_arrow t : ∃ u, wrap t = js "() => " ++ u.
Proof.
  unfold wrap. destruct (_ && _)%bool; [by eexists |].
  change (js "() => (") with (js "() => " ++ js "("). rewrite <- app_assoc. by eexists.
Qed.

Lemma patches_keep_arrow x :
  ∃ y, patch_setImmediate (patch_stdlib (patch_self (js "() => " ++ x))) = js "() => " ++ y.
Proof. vm_compute. eexists. reflexivity. Qed.

Lemma patches_keep_declaration x :
  ∃ y, patch_setImmediate
         (patch_stdlib (patch_self (js "var regeneratorRuntime;" ++ [nl] ++ js "() => " ++ x))) =
       js "var regeneratorRuntime;" ++ [nl] ++ js "() => " ++ y.
Proof. vm_compute. eexists. reflexivity. Qed.

(** Whatever [postProcess] returns is an arrow function [() => ...]; the
    declaration [var regeneratorRuntime;] and a line feed stand before it
    exactly when the substituted text mentions [regeneratorRuntime]; the
    later patches leave this head of the result alone (lines 143-162). *)
Theorem postProcess_result_shape (stripComments : jsstring → jsstring)
    s (opts : options) r
    (Hr : postProcess stripComments (VString s) opts = Returned r) :
  ∃ body,
    r = (if includes (substitute (prepare stripComments opts s)) (js "regeneratorRuntime")
         then js "var regeneratorRuntime;" ++ [nl]
         else []) ++ js "() => " ++ body.
Proof.
  unfold postProcess, finish in Hr.
  destruct (Nat.eqb _ 0); [discriminate |]. injection Hr as <-.
  unfold patch, patch_regenerator. rewrite wrap_keeps_regenerator.
  destruct (wrap_arrow (substitute (prepare stripComments opts s))) as [u ->].
  destruct (includes _ _).
  - destruct (patches_keep_declaration u) as [y Hy]. exists y.
    rewrite <- !app_assoc in *. exact Hy.
  - destruct (patches_keep_arrow u) as [y Hy]. by exists y.
Qed.

Lemma postProcess_result_shape_witness :
  ∃ body,
    js "var regeneratorRuntime;" ++ [nl] ++ js "() => (regeneratorRuntime.mark(f))" =
    (if includes (substitute (prepare (fun s => s) (mkOptions false)
                                (js "(regeneratorRuntime.mark(f));")))
          (js "regeneratorRuntime")
     then js "var regeneratorRuntime;" ++ [nl]
     else []) ++ js "() => " ++ body.
Proof.
  apply (postProcess_result_shape (fun s => s) (js "(regeneratorRuntime.mark(f));")
           (mkOptions false)).
  vm_compute. reflexivity.
Defined.

End Shape.

(** ** Bundles that are only wrapped *)

Section Plain.

Implicit Types (a b s t u q x : jsstring).

Lemma startsWith_head_r q :
  ∀ u b, match b with [] => True | c :: _ => existsb (N.eqb c) q = false end →
         startsWith (u ++ b) q = startsWith u q.
Proof.
  induction q as [|x q IH]; intros u b Hb; [reflexivity |].
  destruct u as [|d u].
  - cbn [app]. destruct b as [|c b]; [reflexivity |].
    cbn [startsWith existsb] in *. apply orb_false_iff in Hb. destruct Hb as [Hc _].
    by rewrite Hc.
  - cbn [app startsWith]. f_equal. apply IH.
    destruct b as [|c b]; [exact I |].
    cbn [existsb] in Hb. apply orb_false_iff in Hb. tauto.
Qed.

(** Nothing that begins in [u] can run into a [b] whose first character is
    foreign to [q]. *)
Lemma includes_inert_r q u b :
  match b with [] => True | c :: _ => existsb (N.eqb c) q = false end →
  includes b q = false → includes (u ++ b) q = includes u q.
Proof.
  intros Hb Hq. induction u as [|d u IH].
  - cbn [app]. rewrite Hq. destruct q; [by destruct b | reflexivity].
  - change ((d :: u) ++ b) with (d :: u ++ b). cbn [includes].
    rewrite IH. f_equal.
    change (d :: u ++ b) with ((d :: u) ++ b). by apply startsWith_head_r.
Qed.

Lemma includes_head_l (x : char) q a s :
  Forall (fun c : char => N.eqb c x = false) a →
  includes (a ++ s) (x :: q) = includes s (x :: q).
Proof.
  intros Ha. induction Ha as [|c a Hc Ha IH]; [reflexivity |].
  change ((c :: a) ++ s) with (c :: a ++ s). cbn [includes]. rewrite IH.
  cbn [startsWith]. by rewrite Hc.
Qed.

(** Wrapping neither adds nor hides an occurrence of a text that begins
    with none of the characters of [() => (] and the line feed and has
    neither a line feed nor a semicolon in it. *)
Lemma wrap_keeps (x : char) q t :
  Forall (fun c : char => N.eqb c x = false) (js "() => (" ++ [nl]) →
  existsb (N.eqb nl) (x :: q) = false →
  existsb (N.eqb (ch ";")) (x :: q) = false →
  includes (wrap t) (x :: q) = includes t (x :: q).
Proof.
  intros Hpre Hnl Hsemi.
  assert (Hpre' : Forall (fun c : char => N.eqb c x = false) (js "() => ")).
  { change (js "() => (") with (js "() => " ++ js "(") in Hpre.
    rewrite <- app_assoc in Hpre. by apply Forall_app in Hpre as [H _]. }
  assert (Hparen : N.eqb (ch ")") x = false).
  { change (js "() => (") with ([ch "("; ch ")"] ++ js " => (") in Hpre.
    apply Forall_app in Hpre as [H _]. apply Forall_cons in H as [_ H].
    by apply Forall_cons in H as [H _]. }
  assert (Hnlx : N.eqb nl x = false).
  { cbn [existsb] in Hnl. apply orb_false_iff in Hnl. tauto. }
  assert (Hu : ∀ u, includes
                      (if (startsWith u (js "(") && endsWith u (js ")"))%bool
                       then js "() => " ++ u
                       else js "() => (" ++ [nl] ++ u ++ [nl] ++ js ")")
                      (x :: q) = includes u (x :: q)).
  { intros u. destruct (_ && _)%bool.
    - by apply includes_head_l.
    - rewrite app_assoc, includes_head_l by assumption.
      apply includes_inert_r; [exact Hnl |].
      change (js ")") with [ch ")"]. cbn [app includes startsWith].
      by rewrite Hnlx, Hparen. }
  unfold wrap. rewrite Hu. destruct (endsWith t (js ";")) eqn:E; [| reflexivity].
  apply endsWith_suffix in E. destruct E as [u ->].
  change (js ";") with [ch ";"]. rewrite slice_0_m1_app.
  symmetry. apply includes_inert_r; [exact Hsemi |].
  cbn [includes startsWith]. cbn [existsb] in Hsemi.
  apply orb_false_iff in Hsemi. destruct Hsemi as [Hs _]. by rewrite Hs.
Qed.

Lemma stdlib_match_startsWith b s (st' : mstate) :
  match_at re_stdlib b s = Some st' → startsWith s (js "stdlib") = true.
Proof.
  unfold match_at, re_stdlib. cbn [source flag_m rseq rmatch].
  rewrite rmatch_rstr. destruct (startsWith _ _); [reflexivity | discriminate].
Qed.

Lemma replace_string_absent s q r : includes s q = false → replace_string s q r = s.
Proof.
  induction s as [|c s IH]; intros H; rewrite replace_string_unfold.
  - simpl in H. rewrite orb_false_r in H. by rewrite H.
  - simpl in H. apply orb_false_iff in H. destruct H as [H1 H2].
    by rewrite H1, IH.
Qed.

(** A wrapped text without the four texts of lines 152-162 passes the
    patches unchanged. *)
Lemma patch_absent t :
  includes t (js "regeneratorRuntime") = false →
  includes t (js "self") = false →
  includes t (js "stdlib") = false →
  includes t setImmediate_call = false →
  patch (wrap t) = wrap t.
Proof.
  intros Hregen Hself Hstdlib Hcall. unfold patch, patch_regenerator.
  rewrite wrap_keeps_regenerator, Hregen.
  rewrite patch_self_replace_all, replace_all_absent; [| literal_side |].
  2: { change (js "self") with (ch "s" :: js "elf").
       rewrite wrap_keeps; [assumption | vm_compute; repeat constructor | reflexivity..]. }
  unfold patch_stdlib, replace.
  rewrite (replace_from_absent _ _ (js "stdlib")).
  - apply replace_string_absent.
    change setImmediate_call with (ch "s" :: js "etImmediate(() => resultCb(result))").
    rewrite wrap_keeps; [assumption | vm_compute; repeat constructor | reflexivity..].
  - intros b s st' H. by apply includes_startsWith, (stdlib_match_startsWith b s st').
  - change (js "stdlib") with (ch "s" :: js "tdlib").
    rewrite wrap_keeps; [assumption | vm_compute; repeat constructor | reflexivity..].
Qed.

Lemma plain_includes t q : plain t = true → In q trigger_texts → includes t q = false.
Proof.
  unfold plain. rewrite forallb_forall. intros H Hq.
  by apply negb_true_iff, H.
Qed.

(** A bundle that, trimmed and optionally stripped, is not empty and holds
    none of the texts the patterns look for is returned wrapped and
    otherwise untouched: [postProcess] rewrites nothing else (lines
    101-165). *)
Theorem postProcess_plain_bundle (stripComments : jsstring → jsstring)
    s (opts : options)
    (Hne : prepare stripComments opts s ≠ [])
    (Hplain : plain (prepare stripComments opts s) = true) :
  postProcess stripComments (VString s) opts =
  Returned (wrap (prepare stripComments opts s)).
Proof.
  unfold postProcess.
  rewrite substitute_absent; try (apply (plain_includes _ _ Hplain); cbn; tauto).
  rewrite finish_nonempty by assumption.
  rewrite patch_absent; try (apply (plain_includes _ _ Hplain); cbn; tauto).
  reflexivity.
Qed.

Lemma postProcess_plain_bundle_witness :
  postProcess (fun s => s) (VString (js "  module.exports = compute(input);  "))
    (mkOptions false) =
  Returned (wrap (prepare (fun s => s) (mkOptions false)
                    (js "  module.exports = compute(input);  "))).
Proof.
  apply (postProcess_plain_bundle (fun s => s) (js "  module.exports = compute(input);  ")
           (mkOptions false)).
  - vm_compute. discriminate.
  - vm_compute. reflexivity.
Defined.

End Plain.
